(** * basin-coding: a shallow embedding of src/src/basin_coding.js

    JavaScript strings are sequences of UTF-16 code units; an alphabet or an
    encoded text is modelled as [list Z] of code units.  Numbers are JS
    doubles, but every quantity the encoder and decoder compute on their
    normal paths is an integer below 2^53 (interval bounds stay below 2^40,
    and the products below 2^48), so the double arithmetic is exact there and
    [Z] models it:
    - [Math.floor(a / b)] with [b > 0] is [Z.div a b];
    - [Math.ceil(x * (1 / 256))] is the ceiling of [x / 256] (multiplying by
      a power of two is exact);
    - [a % b] is [Z.rem a b] (the sign of the result follows [a], as in JS). *)

From Stdlib Require Import ZArith Lia List Ascii String Bool.
From stdpp Require Import base gmap list.

Open Scope Z_scope.

(* ------------------------------------------------------------------ *)
(** ** Errors and outcomes *)

(** What a [throw] in the module carries. *)
Inductive config_problem := TooFewSymbols | TooManySymbols.

Inductive js_error :=
  (** [throw new Error("alphabet must ...")] in the constructors *)
  | ConfigurationError (why : config_problem)
  (** [throw new Error("invalid input string")] in [decode] *)
  | InputError
  (** [StringBuilder.add(undefined)]: reading [undefined.length] throws *)
  | TypeError.

Inductive outcome (A : Type) :=
  | Ok (a : A)
  | Threw (e : js_error).
Arguments Ok {A} a.
Arguments Threw {A} e.

(* ------------------------------------------------------------------ *)
(** ** Constants *)

Definition MIN_ALPHABET_SIZE : Z := 2.
Definition MAX_ALPHABET_SIZE : Z := 256.

Definition codes_of_string (str : string) : list Z :=
  map (fun a => Z.of_nat (nat_of_ascii a)) (list_ascii_of_string str).

Definition DEFAULT_ALPHABET : list Z :=
  codes_of_string
    ("0123456789abcdefghijklmnopqrstuvwxyzABCDEFGHIJKLMNOPQRSTUVWXYZ"
     ++ "!@#$%^*()-=;,./_+{}|:?~")%string.

(** [" \n\r\t\v\f   ".includes(ch)] for a one-unit [ch]. *)
Definition whitespace_units : list Z :=
  [32; 10; 13; 9; 11; 12; 160; 8232; 8233].

Definition isWhitespace (ch : Z) : bool :=
  existsb (Z.eqb ch) whitespace_units.

(* ------------------------------------------------------------------ *)
(** ** calculateParams *)

Record params := mkParams {
  msdDivisor : Z;
  secondMsdDivisor : Z;
  maxDigitsToEmit : Z;
  maxDigitsToDecode : Z
}.

(** [while (msdDivisor <= 0x100_0000_0000) { msdDivisor *= base; ++maxDigitsToDecode }].
    The loop runs forever when [base <= 1]; the fuel (64 rounds, enough for
    every [base >= 2]) turns that into [None]. *)
Fixpoint msd_loop (fuel : nat) (base msd digits : Z) : option (Z * Z) :=
  if msd <=? 2 ^ 40 then
    match fuel with
    | O => None
    | S f => msd_loop f base (msd * base) (digits + 1)
    end
  else Some (msd, digits).

(** [while (tmp < 0x100) { tmp *= base; ++maxDigitsToEmit }] *)
Fixpoint emit_count_loop (fuel : nat) (base tmp count : Z) : option Z :=
  if tmp <? 256 then
    match fuel with
    | O => None
    | S f => emit_count_loop f base (tmp * base) (count + 1)
    end
  else Some count.

Definition calculateParams (base : Z) : option params :=
  match msd_loop 64 base 1 0 with
  | None => None
  | Some (msd, digits) =>
      let msd' := msd / (base * base) in
      let second := msd' / base in
      match emit_count_loop 64 base 1 1 with
      | None => None
      | Some emit => Some (mkParams msd' second emit (digits - 1))
      end
  end.

(* ------------------------------------------------------------------ *)
(** ** Encoder and Decoder objects *)

Record Encoder := mkEncoder { encodingTable : list Z }.
Record Decoder := mkDecoder { decodingTable : gmap Z Z }.

Definition check_alphabet (alphabet : list Z) : option js_error :=
  if Z.of_nat (length alphabet) <? MIN_ALPHABET_SIZE then
    Some (ConfigurationError TooFewSymbols)
  else if MAX_ALPHABET_SIZE <? Z.of_nat (length alphabet) then
    Some (ConfigurationError TooManySymbols)
  else None.

(** [for (let i = alphabet.length; i--;) decodingTable.set(alphabet.charCodeAt(i), i)]:
    the indices are visited from [length - 1] down to [0]. *)
Fixpoint fill_table (alphabet : list Z) (i : nat) (t : gmap Z Z) : gmap Z Z :=
  match i with
  | O => t
  | S i' => fill_table alphabet i' (<[nth i' alphabet 0 := Z.of_nat i']> t)
  end.

Definition build_decodingTable (alphabet : list Z) : gmap Z Z :=
  fill_table alphabet (length alphabet) ∅.

Definition Encoder_new (alphabet : list Z) : outcome Encoder :=
  match check_alphabet alphabet with
  | Some e => Threw e
  | None => Ok (mkEncoder alphabet)
  end.

Definition Decoder_new (alphabet : list Z) : outcome Decoder :=
  match check_alphabet alphabet with
  | Some e => Threw e
  | None => Ok (mkDecoder (build_decodingTable alphabet))
  end.

(* ------------------------------------------------------------------ *)
(** ** Interval arithmetic shared by [encode] and [decode] *)

(** [Math.ceil(x * (1 / 256))] for an integer [x]. *)
Definition ceil256 (x : Z) : Z := - ((- x) / 256).

(** [nextLo] and [nextHi] of both loops:
    [lo + Math.ceil((hi - lo + 1) * byte * (1 / 256))] and
    [lo + (Math.ceil((hi - lo + 1) * (byte + 1) * (1 / 256)) - 1)]. *)
Definition narrow (lo hi byte : Z) : Z * Z :=
  (lo + ceil256 ((hi - lo + 1) * byte),
   lo + (ceil256 ((hi - lo + 1) * (byte + 1)) - 1)).

(** One round of the [for (let _ = maxDigitsToEmit; _--;)] loop, as far as
    [lo] and [hi] go: the encoder (lines 67-99) and the decoder (lines
    260-283) test the same conditions and update [lo] and [hi] the same way;
    they differ only in the bookkeeping done next to it. *)
Inductive shift :=
  (** the carry-straddle branch: collapse the second digit *)
  | Defer (lo' hi' hiMsd : Z)
  (** the [loMsd === hiMsd] branch *)
  | Settle (hiMsd lo' hi' : Z)
  (** one of the two [break]s *)
  | Stop.

Definition shift_step (base msd second lo hi : Z) : shift :=
  let loMsd := lo / msd in
  let hiMsd := hi / msd in
  if hiMsd - loMsd =? 1 then
    if (Z.rem (lo / second) base =? base - 1) && (Z.rem (hi / second) base =? 0)
    then Defer (loMsd * msd + Z.rem lo second * base)
               (hiMsd * msd + Z.rem hi second * base) hiMsd
    else Stop
  else if loMsd =? hiMsd then
    Settle hiMsd (Z.rem lo msd * base) (Z.rem hi msd * base)
  else Stop.

(** [lo] and [hi] after [k] rounds of the inner loop (both loops). *)
Fixpoint shift_iter (base msd second : Z) (k : nat) (lo hi : Z) : Z * Z :=
  match k with
  | O => (lo, hi)
  | S k' =>
      match shift_step base msd second lo hi with
      | Defer lo' hi' _ | Settle _ lo' hi' => shift_iter base msd second k' lo' hi'
      | Stop => (lo, hi)
      end
  end.

(* ------------------------------------------------------------------ *)
(** ** Encoder.encode *)

(** The local variables of [encode]. [e_out] lists the indices passed to
    [this.encodingTable[...]] in the order of the [result.add] calls. *)
Record enc_state := mkEnc {
  e_bytesEncoded : Z;
  e_lo : Z;
  e_hi : Z;
  e_digitsToAdd : Z;
  e_digitsToAddHiMsd : Z;
  e_out : list Z
}.

Section EncodeLoop.
Variable base : Z.
Variable P : params.
Let msd := msdDivisor P.
Let second := secondMsdDivisor P.

(** The inner [for] loop of one byte, with [k] rounds left. *)
Fixpoint emit_loop (k : nat) (st : enc_state) : enc_state :=
  match k with
  | O => st
  | S k' =>
      match shift_step base msd second (e_lo st) (e_hi st) with
      | Defer lo' hi' hiMsd =>
          emit_loop k'
            (mkEnc (e_bytesEncoded st) lo' hi' (e_digitsToAdd st + 1) hiMsd
               (e_out st))
      | Settle hiMsd lo' hi' =>
          let pending :=
            if 0 <? e_digitsToAdd st then
              repeat (if hiMsd =? e_digitsToAddHiMsd st then 0 else base - 1)
                (Z.to_nat (e_digitsToAdd st))
            else [] in
          emit_loop k'
            (mkEnc (e_bytesEncoded st) lo' hi'
               (if 0 <? e_digitsToAdd st then 0 else e_digitsToAdd st)
               (e_digitsToAddHiMsd st)
               (e_out st ++ [hiMsd] ++ pending))
      | Stop => st
      end
  end.

(** One iteration of [for (const byte of bytes)]. *)
Definition encode_byte (st : enc_state) (byte : Z) : enc_state :=
  let '(lo', hi') := narrow (e_lo st) (e_hi st) byte in
  let st' := emit_loop (Z.to_nat (maxDigitsToEmit P))
               (mkEnc (e_bytesEncoded st) lo' hi' (e_digitsToAdd st)
                  (e_digitsToAddHiMsd st) (e_out st)) in
  mkEnc (e_bytesEncoded st' + 1) (e_lo st') (e_hi st') (e_digitsToAdd st')
    (e_digitsToAddHiMsd st') (e_out st').

Definition enc_init : enc_state := mkEnc 0 0 (msd * base - 1) 0 0 [].

Definition encode_loop (bytes : list Z) : enc_state :=
  fold_left encode_byte bytes enc_init.

(** Lines 105-112: the final digit, the pending digits resolved to [0],
    and the parity terminator. *)
Definition encode_finish (st : enc_state) : list Z :=
  e_out st ++ [e_hi st / msd]
    ++ (if 0 <? e_digitsToAdd st then repeat 0 (Z.to_nat (e_digitsToAdd st)) else [])
    ++ [Z.rem (e_bytesEncoded st) 2].

Definition encode_indices (bytes : list Z) : list Z :=
  encode_finish (encode_loop bytes).
End EncodeLoop.

(** [this.encodingTable[k]] followed by [result.add]: an index outside the
    string gives [undefined], and [add(undefined)] throws a [TypeError].
    [encode] has no other effect, so the call either returns the looked-up
    symbols in order or throws. *)
Fixpoint lookup_all (tbl : list Z) (idx : list Z) : outcome (list Z) :=
  match idx with
  | [] => Ok []
  | k :: rest =>
      match (if k <? 0 then None else nth_error tbl (Z.to_nat k)) with
      | None => Threw TypeError
      | Some c =>
          match lookup_all tbl rest with
          | Ok cs => Ok (c :: cs)
          | Threw e => Threw e
          end
      end
  end.

(* ------------------------------------------------------------------ *)
(** ** StringBuilder *)

(** A JS string is modelled by its UTF-16 code units; [chunks] and
    [currChunk] are arrays of strings. *)
Record StringBuilder := mkStringBuilder {
  chunks : list (list Z);
  currChunk : list (list Z);
  currChunkLength : Z
}.

(** [new StringBuilder()] *)
Definition StringBuilder_new : StringBuilder := mkStringBuilder [] [] 0.

(** [add(string)] for a string argument.  [join("")] concatenates the
    array; [this.currChunk.length = 0] empties it in place, and the string
    pushed on [chunks] is a new value, so no array is shared. *)
Definition StringBuilder_add (sb : StringBuilder) (str : list Z) : StringBuilder :=
  let sb' :=
    if 1024 <=? currChunkLength sb
    then mkStringBuilder (chunks sb ++ [concat (currChunk sb)]) [] 0
    else sb in
  mkStringBuilder (chunks sb') (currChunk sb' ++ [str])
    (currChunkLength sb' + Z.of_nat (length str)).

(** [toString()]: [this.chunks.concat(this.currChunk).join("")]. *)
Definition StringBuilder_toString (sb : StringBuilder) : list Z :=
  concat (chunks sb ++ currChunk sb).

(** [Encoder.prototype.encode].  [calculateParams] only diverges for a base
    below 2, which [Encoder_new] rules out; that case is mapped to [Ok []]
    and never arises for an [Encoder] built by [Encoder_new]. *)
Definition encode (enc : Encoder) (bytes : list Z) : outcome (list Z) :=
  let tbl := encodingTable enc in
  let base := Z.of_nat (length tbl) in
  match calculateParams base with
  | None => Ok []
  | Some P => lookup_all tbl (encode_indices base P bytes)
  end.

(* ------------------------------------------------------------------ *)
(** ** decode (the generator function) *)

(** The local variables of the generator [decode]. *)
Record dec_state := mkDec {
  d_bytesDecoded : Z;
  d_lo : Z;
  d_hi : Z;
  d_i : Z;
  d_digitsToDecode : Z;
  d_requestedDigits : Z;
  d_requestedDigitsKeepMsd : Z;
  d_isLastDigit : bool
}.

(** How a run of the generator ends: [return], a [throw], or still running
    when the fuel is spent (a loop that never exits stays in this case for
    every fuel). *)
Inductive dec_end := Returned | Raised (e : js_error) | Running.

(** One round of the inner [while (requestedDigits > 0)] loop. *)
Inductive pull := Pulled (st : dec_state) | Skipped | PullThrew.

Section DecodeLoop.
Variable decodingTable : gmap Z Z.
Variable encodedText : list Z.
Variable endIndex : Z.
Variable lengthParity : Z.
Variable base : Z.
Variable P : params.
Let msd := msdDivisor P.
Let second := secondMsdDivisor P.

Definition charCodeAt (i : Z) : Z := nth (Z.to_nat i) encodedText 0.

(** Lines 206-235.  [Skipped] is the [continue] of line 211: control goes
    back to the loop test with every variable unchanged. *)
Definition pull_digit (st : dec_state) : pull :=
  let i := d_i st in
  let read :=
    if i <? endIndex then
      match decodingTable !! charCodeAt i with
      | None => if isWhitespace (charCodeAt i) then None else Some None
      | Some digit => Some (Some (digit, d_isLastDigit st))
      end
    else Some (Some (0, d_isLastDigit st
                        || (i - endIndex =? maxDigitsToDecode P - 2))) in
  match read with
  | None => Skipped
  | Some None => PullThrew
  | Some (Some (digit, last)) =>
      let acc := d_digitsToDecode st in
      if d_requestedDigits st =? d_requestedDigitsKeepMsd st then
        Pulled (mkDec (d_bytesDecoded st) (d_lo st) (d_hi st) (i + 1)
                  ((acc / msd) * msd + Z.rem acc second * base + digit)
                  (d_requestedDigits st - 1) (d_requestedDigitsKeepMsd st - 1) last)
      else
        Pulled (mkDec (d_bytesDecoded st) (d_lo st) (d_hi st) (i + 1)
                  (Z.rem acc msd * base + digit)
                  (d_requestedDigits st - 1) (d_requestedDigitsKeepMsd st) last)
  end.

(** Lines 259-284, with [k] rounds left. *)
Fixpoint request_loop (k : nat) (st : dec_state) : dec_state :=
  match k with
  | O => st
  | S k' =>
      match shift_step base msd second (d_lo st) (d_hi st) with
      | Defer lo' hi' _ =>
          request_loop k'
            (mkDec (d_bytesDecoded st) lo' hi' (d_i st) (d_digitsToDecode st)
               (d_requestedDigits st + 1) (d_requestedDigitsKeepMsd st + 1)
               (d_isLastDigit st))
      | Settle _ lo' hi' =>
          request_loop k'
            (mkDec (d_bytesDecoded st) lo' hi' (d_i st) (d_digitsToDecode st)
               (d_requestedDigits st + 1) (d_requestedDigitsKeepMsd st)
               (d_isLastDigit st))
      | Stop => st
      end
  end.

(** Lines 251-286: narrow with the decoded byte, request digits, count. *)
Definition after_byte (st : dec_state) (byte : Z) : dec_state :=
  let '(lo', hi') := narrow (d_lo st) (d_hi st) byte in
  let st' := request_loop (Z.to_nat (maxDigitsToEmit P))
               (mkDec (d_bytesDecoded st) lo' hi' (d_i st) (d_digitsToDecode st)
                  (d_requestedDigits st) (d_requestedDigitsKeepMsd st)
                  (d_isLastDigit st)) in
  mkDec (d_bytesDecoded st' + 1) (d_lo st') (d_hi st') (d_i st')
    (d_digitsToDecode st') (d_requestedDigits st')
    (d_requestedDigitsKeepMsd st') (d_isLastDigit st').

(** Line 238-240. *)
Definition decoded_byte (st : dec_state) : Z :=
  (256 * (d_digitsToDecode st - d_lo st)) / (d_hi st - d_lo st + 1).

(** The [while (true)] loop; each round of either loop spends one unit of
    fuel.  The list holds the yielded bytes. *)
Fixpoint run (fuel : nat) (st : dec_state) : list Z * dec_end :=
  match fuel with
  | O => ([], Running)
  | S f =>
      if 0 <? d_requestedDigits st then
        match pull_digit st with
        | Pulled st' => run f st'
        | Skipped => run f st
        | PullThrew => ([], Raised InputError)
        end
      else
        let byte := decoded_byte st in
        if d_isLastDigit st then
          ((if negb (Z.rem (d_bytesDecoded st) 2 =? lengthParity) then [byte] else []),
           Returned)
        else
          let '(ys, r) := run f (after_byte st byte) in (byte :: ys, r)
  end.

Definition dec_init : dec_state :=
  mkDec 0 0 (msd * base - 1) 0 0 (maxDigitsToDecode P) 0 false.
End DecodeLoop.

(** [decode(encodedText, decodingTable)], run with [fuel]; the checks of
    lines 178-189 come first.  [base] is [decodingTable.size]. *)
Definition decode_with (decodingTable : gmap Z Z) (encodedText : list Z) (fuel : nat)
    : list Z * dec_end :=
  let endIndex := Z.of_nat (length encodedText) - 1 in
  if endIndex <? 0 then ([], Raised InputError) else
  match decodingTable !! charCodeAt encodedText endIndex with
  | None => ([], Raised InputError)
  | Some lengthParity =>
      if 1 <? lengthParity then ([], Raised InputError) else
      let base := Z.of_nat (size decodingTable) in
      match calculateParams base with
      | None => ([], Running)
      | Some P =>
          run decodingTable encodedText endIndex lengthParity base P fuel
            (dec_init base P)
      end
  end.

(** [Decoder.prototype.decode]. *)
Definition decode (dec : Decoder) (encodedText : list Z) (fuel : nat) : list Z * dec_end :=
  decode_with (decodingTable dec) encodedText fuel.

(* ------------------------------------------------------------------ *)
(** ** Reading of the spec's words *)

Definition is_config_error {A} (o : outcome A) : Prop :=
  match o with Threw (ConfigurationError _) => True | _ => False end.

Definition succeeds {A} (o : outcome A) : Prop :=
  match o with Ok _ => True | Threw _ => False end.

(** The index of the first / last occurrence of [c] in an alphabet. *)
Fixpoint first_index_from (l : list Z) (c k : Z) : option Z :=
  match l with
  | [] => None
  | x :: r => if x =? c then Some k else first_index_from r c (k + 1)
  end.

Definition first_index (l : list Z) (c : Z) : option Z := first_index_from l c 0.

Fixpoint last_index_from (l : list Z) (c k : Z) : option Z :=
  match l with
  | [] => None
  | x :: r =>
      match last_index_from r c (k + 1) with
      | Some j => Some j
      | None => if x =? c then Some k else None
      end
  end.

Definition last_index (l : list Z) (c : Z) : option Z := last_index_from l c 0.

(** "the smallest integer k such that base^k >= 256" *)
Definition least_pow_reaching_256 (base k : Z) : Prop :=
  0 <= k /\ 256 <= base ^ k /\ forall j, 0 <= j < k -> base ^ j < 256.

(** The facts about [calculateParams] the proofs use, checked for one base. *)
Definition params_ok (base : Z) : bool :=
  match calculateParams base with
  | None => false
  | Some P =>
      let m := msdDivisor P in
      let s := secondMsdDivisor P in
      let e := maxDigitsToEmit P in
      let D := maxDigitsToDecode P in
      (m =? s * base) && (2 ^ 20 <=? s) && (m * base <=? 2 ^ 40)
      && (2 <=? e) && (256 <=? base ^ (e - 1)) && (base ^ (e - 2) <? 256)
      && (s =? base ^ (D - 2)) && (e + 2 <=? D)
      && (m =? base ^ (D - 1)) && (m mod base ^ e =? 0) && (s mod base ^ (e - 1) =? 0)
      && (256 * (m / base ^ e - 1) + 253 <? s)
      && (m * base + 255 <? 256 * (256 * (s + 2) - 255))
  end.

(** [msdDivisor * base] is the largest power of [base] not above [2^40]. *)
Definition params_max_ok (base : Z) : bool :=
  match calculateParams base with
  | None => false
  | Some P => 2 ^ 40 <? msdDivisor P * base * base
  end.

Record params_facts (base : Z) (P : params) : Prop := {
  pf_msd : msdDivisor P = secondMsdDivisor P * base;
  pf_second : 2 ^ 20 <= secondMsdDivisor P;
  pf_range : msdDivisor P * base <= 2 ^ 40;
  pf_emit2 : 2 <= maxDigitsToEmit P;
  pf_emit_hi : 256 <= base ^ (maxDigitsToEmit P - 1);
  pf_emit_lo : base ^ (maxDigitsToEmit P - 2) < 256;
  pf_second_pow : secondMsdDivisor P = base ^ (maxDigitsToDecode P - 2);
  pf_decode : maxDigitsToEmit P + 2 <= maxDigitsToDecode P;
  pf_msd_pow : msdDivisor P = base ^ (maxDigitsToDecode P - 1);
  pf_emit_div : msdDivisor P mod base ^ maxDigitsToEmit P = 0;
  pf_emit_div2 : secondMsdDivisor P mod base ^ (maxDigitsToEmit P - 1) = 0;
  pf_settled : 256 * (msdDivisor P / base ^ maxDigitsToEmit P - 1) + 253 < secondMsdDivisor P;
  pf_two_bytes : msdDivisor P * base + 255 < 256 * (256 * (secondMsdDivisor P + 2) - 255)
}.

(** The interval invariant of the spec: "0 <= lo <= hi <= msdDivisor * base - 1". *)
Definition interval_ok (base : Z) (P : params) (lo hi : Z) : Prop :=
  0 <= lo /\ lo <= hi /\ hi <= msdDivisor P * base - 1.

(** The invariant at the start of each per-byte iteration: the interval
    also spans more than [secondMsdDivisor] values. *)
Definition start_ok (base : Z) (P : params) (lo hi : Z) : Prop :=
  interval_ok base P lo hi /\ secondMsdDivisor P + 1 <= hi - lo.

Definition byte_ok (b : Z) : Prop := 0 <= b <= 255.

(** An index into an alphabet of [base] symbols. *)
Definition idx_ok (base k : Z) : Prop := 0 <= k < base.

(* ------------------------------------------------------------------ *)
(** ** The digit window of the decoder *)

(** The number written by the first [n] digits of [l] (most significant
    first), a missing digit counting as [0]. *)
Fixpoint digits_value (base : Z) (n : nat) (l : list Z) : Z :=
  match n with
  | O => 0
  | S n' => nth 0 l 0 * base ^ Z.of_nat n' + digits_value base n' (tl l)
  end.

(** The digits [decode] reads: the output of [encode] without its
    terminator; past its end [decode] reads the digit [0]. *)
Definition vis_of (base : Z) (P : params) (st : enc_state) : list Z :=
  e_out st ++ [e_hi st / msdDivisor P] ++ repeat 0 (Z.to_nat (e_digitsToAdd st)).

(** Every digit of [l] is an index into an alphabet of [base] symbols. *)
Definition digits_in (base : Z) (l : list Z) : Prop := forall j, 0 <= nth j l 0 < base.

Definition e_pos (st : enc_state) : nat := length (e_out st).
Definition e_pend (st : enc_state) : nat := Z.to_nat (e_digitsToAdd st).

(** The number of inner-loop rounds that settled or deferred so far. *)
Definition enc_count (st : enc_state) : nat := (e_pos st + e_pend st)%nat.

(** The value [digitsToDecode] holds when the encoder has committed [pos]
    digits and [pend] digits are pending: the next digit, then the
    [maxDigitsToDecode - 1] digits that follow the pending ones. *)
Definition window (base : Z) (P : params) (vis : list Z) (pos pend : nat) : Z :=
  nth pos vis 0 * msdDivisor P
  + digits_value base (Z.to_nat (maxDigitsToDecode P) - 1) (drop (pos + pend + 1) vis).

(** [pos] and [pend] after [a] settle rounds and then [c] defer rounds. *)
Definition ops (a c pos pend : nat) : nat * nat :=
  match a with
  | O => (pos, pend + c)
  | S _ => (pos + pend + a, c)
  end%nat.

(** Pending digits are bracketed by [digitsToAddHiMsd]. *)
Definition pending_ok (base : Z) (P : params) (st : enc_state) : Prop :=
  0 <= e_digitsToAdd st
  /\ (0 < e_digitsToAdd st ->
      e_digitsToAddHiMsd st - 1 <= e_lo st / msdDivisor P
      /\ e_hi st / msdDivisor P <= e_digitsToAddHiMsd st).

(** What holds at the end of each per-byte iteration of [encode]. *)
Definition byte_end_ok (base : Z) (P : params) (st : enc_state) : Prop :=
  (0 < e_digitsToAdd st -> e_hi st / msdDivisor P = e_digitsToAddHiMsd st)
  /\ e_lo st <= e_hi st / msdDivisor P * msdDivisor P.

Definition enc_ok (base : Z) (P : params) (st : enc_state) : Prop :=
  start_ok base P (e_lo st) (e_hi st) /\ pending_ok base P st /\ byte_end_ok base P st.

(** The digits [vis] the encoder eventually produces are consistent with
    the state [st]: they extend what [st] has committed, the window lies in
    [lo, hi], and the pending digits are resolved as [digitsToAddHiMsd]
    says. *)
Definition good (base : Z) (P : params) (vis : list Z) (st : enc_state) : Prop :=
  (exists t, vis = e_out st ++ t)
  /\ e_lo st <= window base P vis (e_pos st) (e_pend st) <= e_hi st
  /\ (0 < e_digitsToAdd st ->
      exists r, (forall j, (1 <= j <= e_pend st)%nat -> nth (e_pos st + j) vis 0 = r)
      /\ ((nth (e_pos st) vis 0 = e_digitsToAddHiMsd st /\ r = 0)
          \/ (nth (e_pos st) vis 0 = e_digitsToAddHiMsd st - 1 /\ r = base - 1))).

(** The state of [decode] that mirrors an encoder state with [pos]
    committed and [pend] pending digits: [i] has passed the window, the
    window is in [digitsToDecode], and [isLastDigit] tells whether the
    reads have reached [maxDigitsToDecode - 2] places past [endIndex]. *)
Definition dec_at (base : Z) (P : params) (vis : list Z) (k lo hi : Z) (pos pend : nat)
    (R K : Z) : dec_state :=
  mkDec k lo hi (Z.of_nat (pos + pend) + maxDigitsToDecode P) (window base P vis pos pend) R K
    (Z.of_nat (length vis) + maxDigitsToDecode P - 2
     <? Z.of_nat (pos + pend) + maxDigitsToDecode P).

(* ------------------------------------------------------------------ *)
(** ** Facts about the code *)

Lemma first_index_from_app l1 l2 c k :
  first_index_from (l1 ++ l2) c k =
  match first_index_from l1 c k with
  | Some j => Some j
  | None => first_index_from l2 c (k + Z.of_nat (length l1))
  end.
Proof.
  revert k; induction l1 as [|x r IH]; intros k; simpl.
  - f_equal; lia.
  - destruct (x =? c); [reflexivity|]. rewrite IH.
    destruct (first_index_from r c (k + 1)); [reflexivity|]. f_equal; lia.
Qed.

Lemma fill_table_lookup alphabet i t c :
  (i <= length alphabet)%nat ->
  fill_table alphabet i t !! c =
  match first_index (firstn i alphabet) c with
  | Some k => Some k
  | None => t !! c
  end.
Proof.
  revert t; induction i as [|i IH]; intros t Hi; simpl.
  - reflexivity.
  - rewrite IH by lia.
    assert (Hsplit : firstn (S i) alphabet = firstn i alphabet ++ [nth i alphabet 0]).
    { clear IH t. revert i Hi; induction alphabet as [|x r IHr]; intros i Hi.
      - simpl in Hi; lia.
      - destruct i as [|i]; simpl; [reflexivity|].
        simpl in Hi. rewrite (IHr i) by lia. reflexivity. }
    unfold first_index. rewrite Hsplit, first_index_from_app.
    destruct (first_index_from (firstn i alphabet) c 0) as [k|]; [reflexivity|].
    simpl. rewrite length_firstn. replace (Nat.min i (length alphabet)) with i by lia.
    destruct (Z.eqb_spec (nth i alphabet 0) c) as [E|E].
    + subst c. rewrite lookup_insert_eq. f_equal.
    + rewrite lookup_insert_ne by congruence. reflexivity.
Qed.

Lemma build_decodingTable_lookup alphabet c :
  build_decodingTable alphabet !! c = first_index alphabet c.
Proof.
  unfold build_decodingTable. rewrite fill_table_lookup by lia.
  rewrite firstn_all. destruct (first_index alphabet c); reflexivity.
Qed.

Lemma params_ok_all : forallb params_ok (map Z.of_nat (seq 2 255)) = true.
Proof. vm_compute. reflexivity. Qed.

Lemma params_ok_range base : 2 <= base <= 256 -> params_ok base = true.
Proof.
  intros Hb. pose proof params_ok_all as H. rewrite forallb_forall in H.
  apply H. apply in_map_iff. exists (Z.to_nat base). split; [lia|].
  apply in_seq. lia.
Qed.

Lemma calculateParams_facts base :
  2 <= base <= 256 ->
  exists P, calculateParams base = Some P /\ params_facts base P.
Proof.
  intros Hb. pose proof (params_ok_range base Hb) as H. unfold params_ok in H.
  destruct (calculateParams base) as [P|]; [|discriminate].
  exists P; split; [reflexivity|].
  repeat rewrite andb_true_iff in H. rewrite !Z.eqb_eq, !Z.leb_le, !Z.ltb_lt in H.
  destruct H as [[[[[[[[[[[[H1 H2] H3] H4] H5] H6] H7] H8] H9] H10] H11] H12] H13].
  constructor; assumption.
Qed.

(* ------------------------------------------------------------------ *)
(** ** Configuration *)

(** C5: building an [Encoder] or a [Decoder] fails with a
    ConfigurationError exactly when the alphabet has fewer than 2 or more
    than 256 code units, and succeeds exactly when its length is between 2
    and 256 (so with 2 and with 256 symbols). *)
Theorem alphabet_bounds_checked : forall alphabet : list Z,
  (((length alphabet < 2 \/ 256 < length alphabet)%nat <-> is_config_error (Encoder_new alphabet))
   /\ ((length alphabet < 2 \/ 256 < length alphabet)%nat <-> is_config_error (Decoder_new alphabet)))
  /\ (((2 <= length alphabet <= 256)%nat <-> succeeds (Encoder_new alphabet))
   /\ ((2 <= length alphabet <= 256)%nat <-> succeeds (Decoder_new alphabet))).
Proof.
  intros alphabet. unfold Encoder_new, Decoder_new, check_alphabet,
    MIN_ALPHABET_SIZE, MAX_ALPHABET_SIZE.
  destruct (Z.ltb_spec (Z.of_nat (length alphabet)) 2) as [H1|H1];
    [|destruct (Z.ltb_spec 256 (Z.of_nat (length alphabet))) as [H2|H2]];
    simpl; repeat split; intros; try lia; try tauto.
Qed.

(** C3 (counterexample): with the alphabet "aba" the table built by
    [Decoder_new] sends "a" to 0, its first index, not to 2, its last one. *)
Lemma decodingTable_not_last_wins :
  ~ (forall d, Decoder_new [97; 98; 97] = Ok d ->
        decodingTable d !! 97 = last_index [97; 98; 97] 97).
Proof.
  intros H. specialize (H _ eq_refl). vm_compute in H. discriminate H.
Qed.

(** C3 (amended): the decode table built at configuration time maps each
    symbol of the alphabet to the index of its first occurrence (the loop
    runs from the last index down to 0, so the smallest index is written
    last), and has no entry for any other code unit. *)
Theorem decodingTable_first_occurrence : forall alphabet : list Z,
  match Decoder_new alphabet with
  | Ok d => forall c, decodingTable d !! c = first_index alphabet c
  | Threw _ => True
  end.
Proof.
  intros alphabet. unfold Decoder_new.
  destruct (check_alphabet alphabet); [exact I|]. simpl.
  intros c. apply build_decodingTable_lookup.
Qed.

(** C4 (counterexample): for base 256, [maxDigitsToEmit] is 2, while the
    smallest k with 256^k >= 256 is 1. *)
Lemma maxDigitsToEmit_base256_not_least :
  match calculateParams 256 with
  | Some P => maxDigitsToEmit P = 2 /\ ~ least_pow_reaching_256 256 (maxDigitsToEmit P)
  | None => False
  end.
Proof.
  assert (E : calculateParams 256 = Some (mkParams 4294967296 16777216 2 5))
    by (vm_compute; reflexivity).
  rewrite E. simpl. split; [reflexivity|].
  intros [_ [_ H]]. specialize (H 1 ltac:(lia)). simpl in H. lia.
Qed.

(** C4 (amended): for every base in [2, 256], [maxDigitsToEmit] is one more
    than the smallest k with base^k >= 256. *)
Theorem maxDigitsToEmit_one_more_than_least : forall base,
  2 <= base <= 256 ->
  exists P, calculateParams base = Some P
            /\ least_pow_reaching_256 base (maxDigitsToEmit P - 1).
Proof.
  intros base Hb. destruct (calculateParams_facts base Hb) as [P [HP F]].
  exists P. split; [exact HP|]. destruct F.
  split; [lia|]. split; [exact pf_emit_hi0|].
  intros j Hj. eapply Z.le_lt_trans; [|exact pf_emit_lo0].
  apply Z.pow_le_mono_r; lia.
Qed.

Lemma maxDigitsToEmit_one_more_than_least_witness :
  2 <= 85 <= 256 /\
  exists P, calculateParams 85 = Some P /\ least_pow_reaching_256 85 (maxDigitsToEmit P - 1).
Proof. split; [lia|]. apply (maxDigitsToEmit_one_more_than_least 85). lia. Defined.

(* ------------------------------------------------------------------ *)
(** ** Reading the input in [decode] *)

Lemma run_skipped_forever tbl text endIndex par base P st :
  0 < d_requestedDigits st ->
  pull_digit tbl text endIndex base P st = Skipped ->
  forall fuel, run tbl text endIndex par base P fuel st = ([], Running).
Proof.
  intros Hreq Hpull fuel. induction fuel as [|f IH]; simpl; [reflexivity|].
  destruct (Z.ltb_spec 0 (d_requestedDigits st)); [|lia].
  rewrite Hpull. exact IH.
Qed.

Lemma decode_with_start tbl text fuel par P :
  (0 < length text)%nat ->
  tbl !! charCodeAt text (Z.of_nat (length text) - 1) = Some par ->
  par <= 1 ->
  calculateParams (Z.of_nat (size tbl)) = Some P ->
  decode_with tbl text fuel =
  run tbl text (Z.of_nat (length text) - 1) par (Z.of_nat (size tbl)) P fuel
    (dec_init (Z.of_nat (size tbl)) P).
Proof.
  intros Hlen Hpar Hle HP. unfold decode_with.
  destruct (Z.ltb_spec (Z.of_nat (length text) - 1) 0); [lia|].
  rewrite Hpar. destruct (Z.ltb_spec 1 par); [lia|]. rewrite HP. reflexivity.
Qed.

(** C10: while reading digits, a code unit found in the decode table is
    consumed as a digit with its table value and moves the cursor on, even
    when it is also a whitespace character: the table is consulted before
    the whitespace test. *)
Theorem alphabet_membership_before_whitespace :
  forall tbl text endIndex base P st d,
    d_i st < endIndex ->
    tbl !! charCodeAt text (d_i st) = Some d ->
    exists st',
      pull_digit tbl text endIndex base P st = Pulled st'
      /\ d_i st' = d_i st + 1
      /\ d_requestedDigits st' = d_requestedDigits st - 1
      /\ d_digitsToDecode st' =
         (if d_requestedDigits st =? d_requestedDigitsKeepMsd st
          then (d_digitsToDecode st / msdDivisor P) * msdDivisor P
               + Z.rem (d_digitsToDecode st) (secondMsdDivisor P) * base + d
          else Z.rem (d_digitsToDecode st) (msdDivisor P) * base + d).
Proof.
  intros tbl text endIndex base P st d Hi Hd. unfold pull_digit.
  destruct (Z.ltb_spec (d_i st) endIndex); [|lia]. rewrite Hd.
  destruct (Z.eqb (d_requestedDigits st) (d_requestedDigitsKeepMsd st));
    eexists; (split; [reflexivity|]); simpl; auto.
Qed.

Lemma alphabet_membership_before_whitespace_witness :
  let tbl := build_decodingTable [32; 48] in
  0 < 1 /\ tbl !! charCodeAt [32; 48] 0 = Some 0 /\
  exists st',
    pull_digit tbl [32; 48] 1 2 (mkParams 549755813888 274877906944 9 40)
      (mkDec 0 0 (2 ^ 40 - 1) 0 0 40 0 false) = Pulled st'
    /\ d_i st' = 0 + 1 /\ d_requestedDigits st' = 40 - 1
    /\ d_digitsToDecode st' =
       (if 40 =? 0 then (0 / 549755813888) * 549755813888 + Z.rem 0 274877906944 * 2 + 0
        else Z.rem 0 549755813888 * 2 + 0).
Proof.
  intros tbl. split; [lia|]. split; [reflexivity|].
  apply (alphabet_membership_before_whitespace tbl [32; 48] 1 2
           (mkParams 549755813888 274877906944 9 40)
           (mkDec 0 0 (2 ^ 40 - 1) 0 0 40 0 false) 0).
  - simpl. lia.
  - reflexivity.
Defined.

Lemma default_decoder_start text fuel par :
  (0 < length text)%nat ->
  build_decodingTable DEFAULT_ALPHABET !! charCodeAt text (Z.of_nat (length text) - 1)
    = Some par ->
  par <= 1 ->
  decode_with (build_decodingTable DEFAULT_ALPHABET) text fuel =
  run (build_decodingTable DEFAULT_ALPHABET) text (Z.of_nat (length text) - 1) par 85
    (mkParams 4437053125 52200625 3 6) fuel
    (dec_init 85 (mkParams 4437053125 52200625 3 6)).
Proof.
  intros Hlen Hpar Hle.
  assert (Hsize : Z.of_nat (size (build_decodingTable DEFAULT_ALPHABET)) = 85)
    by (vm_compute; reflexivity).
  rewrite (decode_with_start _ _ _ par (mkParams 4437053125 52200625 3 6) Hlen Hpar Hle)
    by (rewrite Hsize; vm_compute; reflexivity).
  rewrite Hsize. reflexivity.
Qed.

(** C2 (code_bug): with the default alphabet, [encode([])] is "~0" and
    decodes to the empty sequence, but " ~0" (one space inserted before
    the terminator) never finishes: the [continue] of line 211 leaves [i]
    unchanged, so the same space is read again forever and nothing is
    yielded. *)
Theorem whitespace_before_terminator_hangs :
  match Encoder_new DEFAULT_ALPHABET, Decoder_new DEFAULT_ALPHABET with
  | Ok enc, Ok dec =>
      encode enc [] = Ok [126; 48]
      /\ decode dec [126; 48] 100 = ([], Returned)
      /\ forall fuel, decode dec [32; 126; 48] fuel = ([], Running)
  | _, _ => False
  end.
Proof.
  cbn [Encoder_new Decoder_new].
  replace (check_alphabet DEFAULT_ALPHABET) with (@None js_error) by reflexivity.
  split; [vm_compute; reflexivity|]. split; [vm_compute; reflexivity|].
  intros fuel. unfold decode. cbn [decodingTable].
  rewrite (default_decoder_start _ fuel 0);
    [|simpl; lia|vm_compute; reflexivity|lia].
  apply run_skipped_forever; [vm_compute; reflexivity|vm_compute; reflexivity].
Qed.

(** C6 (code_bug): with the default alphabet, " &0" has a valid
    terminator and contains "&", which is neither in the alphabet nor
    whitespace, yet decoding it never raises: it is stuck on the leading
    space (the same [continue] as in C2) before reaching "&". *)
Theorem bad_character_after_whitespace_not_reported :
  match Decoder_new DEFAULT_ALPHABET with
  | Ok dec =>
      decodingTable dec !! 38 = None /\ isWhitespace 38 = false
      /\ forall fuel, decode dec [32; 38; 48] fuel = ([], Running)
  | Threw _ => False
  end.
Proof.
  cbn [Decoder_new].
  replace (check_alphabet DEFAULT_ALPHABET) with (@None js_error) by reflexivity.
  split; [vm_compute; reflexivity|]. split; [reflexivity|].
  intros fuel. unfold decode. cbn [decodingTable].
  rewrite (default_decoder_start _ fuel 0);
    [|simpl; lia|vm_compute; reflexivity|lia].
  apply run_skipped_forever; [vm_compute; reflexivity|vm_compute; reflexivity].
Qed.

(* ------------------------------------------------------------------ *)
(** ** The interval arithmetic *)

Lemma ceil256_bounds x : x <= 256 * ceil256 x <= x + 255.
Proof.
  unfold ceil256. pose proof (Z.div_mod (- x) 256 ltac:(lia)).
  pose proof (Z.mod_pos_bound (- x) 256 ltac:(lia)). lia.
Qed.

Lemma narrow_spec lo hi b :
  0 <= b <= 255 -> 256 <= hi - lo + 1 ->
  lo <= fst (narrow lo hi b) /\ fst (narrow lo hi b) <= snd (narrow lo hi b)
  /\ snd (narrow lo hi b) <= hi
  /\ hi - lo + 1 - 255 <= 256 * (snd (narrow lo hi b) - fst (narrow lo hi b) + 1)
  /\ 256 * (snd (narrow lo hi b) - fst (narrow lo hi b) + 1) <= hi - lo + 1 + 255.
Proof.
  intros Hbyte Hw. unfold narrow; simpl.
  set (W := hi - lo + 1) in *.
  replace (W * (b + 1)) with (W * b + W) by ring.
  pose proof (ceil256_bounds (W * b)). pose proof (ceil256_bounds (W * b + W)).
  assert (0 <= W * b) by nia. assert (W * b <= 255 * W) by nia.
  repeat split; lia.
Qed.

(** The byte [decode] computes from a value inside the interval the byte
    narrows to is that byte. *)
Lemma decoded_in_narrow lo hi b w :
  byte_ok b -> 0 < hi - lo + 1 ->
  fst (narrow lo hi b) <= w <= snd (narrow lo hi b) ->
  256 * (w - lo) / (hi - lo + 1) = b.
Proof.
  unfold byte_ok, narrow; simpl. intros Hb' HW Hw.
  set (W := hi - lo + 1) in *.
  pose proof (ceil256_bounds (W * b)). pose proof (ceil256_bounds (W * (b + 1))).
  symmetry. apply (Z.div_unique_pos _ _ _ (256 * (w - lo) - W * b)); nia.
Qed.

Section Arith.
Variable base : Z.
Variable P : params.
Hypothesis Hb : 2 <= base <= 256.
Hypothesis HP : params_facts base P.
#[local] Abbreviation m := (msdDivisor P).
#[local] Abbreviation s := (secondMsdDivisor P).

Lemma s_large : 2 ^ 20 <= s.
Proof. exact (pf_second _ _ HP). Qed.

Lemma m_eq : m = s * base.
Proof. exact (pf_msd _ _ HP). Qed.

Lemma s_pos : 0 < s.
Proof. pose proof s_large. lia. Qed.

Lemma m_pos : 0 < m.
Proof. rewrite m_eq. pose proof s_pos. nia. Qed.

Lemma rem_nonneg x y : 0 <= x -> 0 < y -> Z.rem x y = x mod y.
Proof. intros. apply Z.rem_mod_nonneg; lia. Qed.

(** A non-negative [x] as its leading digit, second digit and rest. *)
Lemma digits_of x :
  0 <= x ->
  x = (x / m) * m + ((x / s) mod base) * s + x mod s
  /\ 0 <= (x / s) mod base < base /\ 0 <= x mod s < s /\ 0 <= x / m.
Proof.
  intros Hx. pose proof s_pos as Hs.
  pose proof (Z.div_mod x s ltac:(lia)) as E1.
  pose proof (Z.div_mod (x / s) base ltac:(lia)) as E2.
  assert (E3 : x / s / base = x / m) by (rewrite m_eq, Z.div_div; lia).
  rewrite E3 in E2.
  pose proof (Z.mod_pos_bound x s Hs). pose proof (Z.mod_pos_bound (x / s) base ltac:(lia)).
  assert (0 <= x / m) by (apply Z.div_pos; [lia|apply m_pos]).
  repeat split; try lia.
  set (q := x / m) in *. set (d := (x / s) mod base) in *. set (r := x mod s) in *.
  set (X := x / s) in *. rewrite m_eq. rewrite E1 at 1. rewrite E2. ring.
Qed.

Lemma mod_m_digits x :
  0 <= x -> x mod m = ((x / s) mod base) * s + x mod s.
Proof.
  intros Hx. destruct (digits_of x Hx) as [E [H1 [H2 H3]]].
  pose proof (Z.div_mod x m ltac:(pose proof m_pos; lia)). rewrite m_eq in *. nia.
Qed.

Lemma interval_msd lo hi :
  interval_ok base P lo hi -> 0 <= lo / m /\ lo / m <= hi / m /\ hi / m <= base - 1.
Proof.
  intros [H1 [H2 H3]]. pose proof m_pos.
  split; [apply Z.div_pos; lia|]. split; [apply Z.div_le_mono; lia|].
  assert (hi / m < base); [|lia]. apply Z.div_lt_upper_bound; lia.
Qed.

Lemma shift_cases lo hi :
  0 <= lo -> 0 <= hi ->
  match shift_step base m s lo hi with
  | Defer lo' hi' h =>
      hi / m = lo / m + 1 /\ (lo / s) mod base = base - 1 /\ (hi / s) mod base = 0
      /\ h = hi / m /\ lo' = lo / m * m + lo mod s * base
      /\ hi' = hi / m * m + hi mod s * base
  | Settle h lo' hi' =>
      lo / m = hi / m /\ h = hi / m /\ lo' = lo mod m * base /\ hi' = hi mod m * base
  | Stop =>
      lo / m <> hi / m
      /\ (hi / m - lo / m = 1 -> (lo / s) mod base <> base - 1 \/ (hi / s) mod base <> 0)
  end.
Proof.
  intros Hlo Hhi. pose proof s_pos. pose proof m_pos.
  assert (0 <= lo / s) by (apply Z.div_pos; lia).
  assert (0 <= hi / s) by (apply Z.div_pos; lia).
  unfold shift_step. rewrite !rem_nonneg by lia.
  destruct (Z.eqb_spec (hi / m - lo / m) 1) as [E1|E1].
  - destruct (Z.eqb_spec ((lo / s) mod base) (base - 1)) as [E2|E2];
      destruct (Z.eqb_spec ((hi / s) mod base) 0) as [E3|E3]; simpl;
      repeat split; try lia.
  - destruct (Z.eqb_spec (lo / m) (hi / m)) as [E2|E2]; repeat split; lia.
Qed.

Lemma shift_interval lo hi :
  interval_ok base P lo hi ->
  match shift_step base m s lo hi with
  | Defer lo' hi' h =>
      interval_ok base P lo' hi' /\ hi' - lo' = base * (hi - lo)
      /\ lo' / m = lo / m /\ hi' / m = hi / m /\ h = hi / m /\ hi / m = lo / m + 1
  | Settle h lo' hi' =>
      interval_ok base P lo' hi' /\ hi' - lo' = base * (hi - lo)
      /\ lo / m = hi / m /\ h = hi / m
  | Stop => s + 1 <= hi - lo /\ lo / m < hi / m
  end.
Proof.
  intros Hi. pose proof (interval_msd lo hi Hi) as [M1 [M2 M3]].
  destruct Hi as [H1 [H2 H3]].
  pose proof (shift_cases lo hi H1 ltac:(lia)) as C.
  pose proof s_pos. pose proof m_pos. pose proof m_eq as Em.
  destruct (digits_of lo H1) as [Dl [Bl1 [Bl2 _]]].
  destruct (digits_of hi ltac:(lia)) as [Dh [Bh1 [Bh2 _]]].
  set (L := lo / m) in *. set (U := hi / m) in *.
  set (dl := (lo / s) mod base) in *. set (dh := (hi / s) mod base) in *.
  set (rl := lo mod s) in *. set (rh := hi mod s) in *.
  destruct (shift_step base m s lo hi) as [lo' hi' h|h lo' hi'|].
  - destruct C as [C1 [C2 [C3 [C4 [C5 C6]]]]]. subst lo' hi' h.
    assert (Hlo' : 0 <= rl * base < m) by nia.
    assert (Hhi' : 0 <= rh * base < m) by nia.
    unfold interval_ok. rewrite C2, C3 in *.
    split; [repeat split; nia|].
    split; [nia|]. split; [|split; [|split; [reflexivity|exact C1]]].
    + symmetry. apply (Z.div_unique_pos _ _ _ (rl * base)); lia.
    + symmetry. apply (Z.div_unique_pos _ _ _ (rh * base)); lia.
  - destruct C as [C1 [C2 [C3 C4]]]. subst lo' hi' h.
    pose proof (Z.div_mod lo m ltac:(lia)) as Q1. pose proof (Z.div_mod hi m ltac:(lia)) as Q2.
    pose proof (Z.mod_pos_bound lo m ltac:(lia)). pose proof (Z.mod_pos_bound hi m ltac:(lia)).
    unfold interval_ok. split; [repeat split; nia|]. split; [nia|]. split; [exact C1|reflexivity].
  - destruct C as [C1 C2].
    split; [|lia].
    destruct (Z.eq_dec (U - L) 1) as [E|E].
    + destruct (C2 E) as [C|C].
      * assert (dl <= base - 2) by lia. nia.
      * assert (1 <= dh) by lia. nia.
    + assert (L + 2 <= U) by lia. nia.
Qed.

Lemma shift_iter_interval k lo hi :
  interval_ok base P lo hi ->
  interval_ok base P (fst (shift_iter base m s k lo hi)) (snd (shift_iter base m s k lo hi))
  /\ (s + 1 <= snd (shift_iter base m s k lo hi) - fst (shift_iter base m s k lo hi)
      \/ snd (shift_iter base m s k lo hi) - fst (shift_iter base m s k lo hi)
         = base ^ Z.of_nat k * (hi - lo)).
Proof.
  revert lo hi; induction k as [|k IH]; intros lo hi Hi; simpl.
  - split; [exact Hi|right; lia].
  - pose proof (shift_interval lo hi Hi) as C.
    destruct (shift_step base m s lo hi) as [lo' hi' h|h lo' hi'|].
    + destruct C as [C1 [C2 _]]. destruct (IH lo' hi' C1) as [I1 [I2|I2]].
      * split; [exact I1|left; exact I2].
      * split; [exact I1|right]. rewrite I2, C2, Nat2Z.inj_succ, Z.pow_succ_r by lia. ring.
    + destruct C as [C1 [C2 _]]. destruct (IH lo' hi' C1) as [I1 [I2|I2]].
      * split; [exact I1|left; exact I2].
      * split; [exact I1|right]. rewrite I2, C2, Nat2Z.inj_succ, Z.pow_succ_r by lia. ring.
    + simpl. split; [exact Hi|left; lia].
Qed.

Lemma emit_pow_large : 512 <= base ^ maxDigitsToEmit P.
Proof.
  pose proof (pf_emit_hi _ _ HP). pose proof (pf_emit2 _ _ HP).
  replace (maxDigitsToEmit P) with (Z.succ (maxDigitsToEmit P - 1)) by lia.
  rewrite Z.pow_succ_r by lia. nia.
Qed.

(** Narrowing and a full inner loop keep the per-byte invariant. *)
Lemma narrow_shift_start lo hi b :
  start_ok base P lo hi -> byte_ok b ->
  interval_ok base P (fst (narrow lo hi b)) (snd (narrow lo hi b))
  /\ start_ok base P
       (fst (shift_iter base m s (Z.to_nat (maxDigitsToEmit P))
               (fst (narrow lo hi b)) (snd (narrow lo hi b))))
       (snd (shift_iter base m s (Z.to_nat (maxDigitsToEmit P))
               (fst (narrow lo hi b)) (snd (narrow lo hi b)))).
Proof.
  intros [[H1 [H2 H3]] H4] Hb'. unfold byte_ok in Hb'. pose proof s_large.
  destruct (narrow_spec lo hi b Hb' ltac:(lia)) as [N1 [N2 [N3 [N4 N5]]]].
  assert (Hn : interval_ok base P (fst (narrow lo hi b)) (snd (narrow lo hi b))).
  { unfold interval_ok. lia. }
  split; [exact Hn|].
  destruct (shift_iter_interval (Z.to_nat (maxDigitsToEmit P)) _ _ Hn) as [I1 [I2|I2]].
  - split; assumption.
  - split; [exact I1|]. rewrite I2.
    rewrite Z2Nat.id by (pose proof (pf_emit2 _ _ HP); lia).
    pose proof emit_pow_large. nia.
Qed.

Lemma emit_loop_shift k st :
  e_lo (emit_loop base P k st) = fst (shift_iter base m s k (e_lo st) (e_hi st))
  /\ e_hi (emit_loop base P k st) = snd (shift_iter base m s k (e_lo st) (e_hi st))
  /\ e_bytesEncoded (emit_loop base P k st) = e_bytesEncoded st.
Proof.
  revert st; induction k as [|k IH]; intros st; simpl; [auto|].
  destruct (shift_step base m s (e_lo st) (e_hi st)); simpl; auto;
    match goal with |- context [emit_loop base P k ?x] =>
      destruct (IH x) as [A [B C]]; simpl in *; auto end.
Qed.

Lemma request_loop_shift k st :
  d_lo (request_loop base P k st) = fst (shift_iter base m s k (d_lo st) (d_hi st))
  /\ d_hi (request_loop base P k st) = snd (shift_iter base m s k (d_lo st) (d_hi st)).
Proof.
  revert st; induction k as [|k IH]; intros st; simpl; [auto|].
  destruct (shift_step base m s (d_lo st) (d_hi st)); simpl; auto; apply IH.
Qed.

Lemma emit_loop_out k st :
  interval_ok base P (e_lo st) (e_hi st) -> Forall (idx_ok base) (e_out st) ->
  Forall (idx_ok base) (e_out (emit_loop base P k st)).
Proof.
  revert st; induction k as [|k IH]; intros st Hi Ho; simpl; [exact Ho|].
  pose proof (shift_interval _ _ Hi) as C. pose proof (interval_msd _ _ Hi) as M.
  destruct (shift_step base m s (e_lo st) (e_hi st)) as [lo' hi' h|h lo' hi'|].
  - apply IH; simpl; [tauto|exact Ho].
  - apply IH; simpl; [tauto|].
    destruct C as [_ [_ [_ Eh]]].
    apply Forall_app; split; [exact Ho|]. constructor; [unfold idx_ok; lia|].
    destruct (0 <? e_digitsToAdd st); [|constructor].
    apply Forall_forall. intros x Hx. apply list_elem_of_In, repeat_spec in Hx. subst x.
    unfold idx_ok. destruct (h =? e_digitsToAddHiMsd st); lia.
  - exact Ho.
Qed.

Lemma encode_byte_ok st b :
  start_ok base P (e_lo st) (e_hi st) -> byte_ok b -> Forall (idx_ok base) (e_out st) ->
  start_ok base P (e_lo (encode_byte base P st b)) (e_hi (encode_byte base P st b))
  /\ Forall (idx_ok base) (e_out (encode_byte base P st b))
  /\ e_bytesEncoded (encode_byte base P st b) = e_bytesEncoded st + 1.
Proof.
  intros Hs Hb' Ho. destruct (narrow_shift_start _ _ _ Hs Hb') as [N1 N2].
  unfold encode_byte. destruct (narrow (e_lo st) (e_hi st) b) as [lo' hi'] eqn:En.
  simpl in N1, N2 |- *.
  set (st0 := mkEnc (e_bytesEncoded st) lo' hi' (e_digitsToAdd st)
                (e_digitsToAddHiMsd st) (e_out st)).
  destruct (emit_loop_shift (Z.to_nat (maxDigitsToEmit P)) st0) as [A [B C]].
  simpl in A, B, C. rewrite A, B, C.
  split; [exact N2|split; [|reflexivity]].
  apply emit_loop_out; [exact N1|exact Ho].
Qed.

Lemma after_byte_ok st b :
  start_ok base P (d_lo st) (d_hi st) -> byte_ok b ->
  start_ok base P (d_lo (after_byte base P st b)) (d_hi (after_byte base P st b)).
Proof.
  intros Hs Hb'. destruct (narrow_shift_start _ _ _ Hs Hb') as [N1 N2].
  unfold after_byte. destruct (narrow (d_lo st) (d_hi st) b) as [lo' hi'] eqn:En.
  simpl in N1, N2 |- *.
  match goal with |- context [request_loop base P ?k ?x] =>
    destruct (request_loop_shift k x) as [A B] end.
  simpl in A, B. rewrite A, B. exact N2.
Qed.

Lemma init_start_ok : start_ok base P 0 (m * base - 1).
Proof.
  pose proof s_large. pose proof m_eq. unfold start_ok, interval_ok. nia.
Qed.

Lemma encode_fold bytes st :
  start_ok base P (e_lo st) (e_hi st) -> Forall (idx_ok base) (e_out st) ->
  Forall byte_ok bytes ->
  start_ok base P (e_lo (fold_left (encode_byte base P) bytes st))
    (e_hi (fold_left (encode_byte base P) bytes st))
  /\ Forall (idx_ok base) (e_out (fold_left (encode_byte base P) bytes st))
  /\ e_bytesEncoded (fold_left (encode_byte base P) bytes st)
     = e_bytesEncoded st + Z.of_nat (length bytes).
Proof.
  revert st; induction bytes as [|b r IH]; intros st Hs Ho Hbs; simpl.
  - split; [exact Hs|split; [exact Ho|lia]].
  - inversion Hbs as [|? ? Hb1 Hr]; subst.
    destruct (encode_byte_ok st b Hs Hb1 Ho) as [E1 [E2 E3]].
    destruct (IH _ E1 E2 Hr) as [F1 [F2 F3]]. split; [exact F1|split; [exact F2|lia]].
Qed.

Lemma encode_loop_ok bytes :
  Forall byte_ok bytes ->
  start_ok base P (e_lo (encode_loop base P bytes)) (e_hi (encode_loop base P bytes))
  /\ Forall (idx_ok base) (e_out (encode_loop base P bytes))
  /\ e_bytesEncoded (encode_loop base P bytes) = Z.of_nat (length bytes).
Proof.
  intros Hbs. unfold encode_loop.
  destruct (encode_fold bytes (enc_init base P) init_start_ok (List.Forall_nil _) Hbs)
    as [A [B C]].
  split; [exact A|split; [exact B|]]. rewrite C. reflexivity.
Qed.

Lemma encode_indices_ok bytes :
  Forall byte_ok bytes -> Forall (idx_ok base) (encode_indices base P bytes).
Proof.
  intros Hbs. destruct (encode_loop_ok bytes Hbs) as [[A _] [B C]].
  pose proof (interval_msd _ _ A) as M.
  unfold encode_indices, encode_finish.
  apply Forall_app; split; [exact B|]. constructor; [unfold idx_ok; lia|].
  apply Forall_app; split.
  - destruct (0 <? e_digitsToAdd (encode_loop base P bytes)); [|constructor].
    apply Forall_forall. intros x Hx. apply list_elem_of_In, repeat_spec in Hx. subst x.
    unfold idx_ok; lia.
  - constructor; [|constructor]. rewrite C, rem_nonneg by lia.
    pose proof (Z.mod_pos_bound (Z.of_nat (length bytes)) 2 ltac:(lia)).
    unfold idx_ok; lia.
Qed.

Lemma encode_byte_start st b :
  start_ok base P (e_lo st) (e_hi st) -> byte_ok b ->
  start_ok base P (e_lo (encode_byte base P st b)) (e_hi (encode_byte base P st b)).
Proof.
  intros Hs Hb'. destruct (narrow_shift_start _ _ _ Hs Hb') as [N1 N2].
  unfold encode_byte. destruct (narrow (e_lo st) (e_hi st) b) as [lo' hi'] eqn:En.
  simpl in N1, N2 |- *.
  match goal with |- context [emit_loop base P ?k ?x] =>
    destruct (emit_loop_shift k x) as [A [B _]] end.
  simpl in A, B. rewrite A, B. exact N2.
Qed.

(** *** Digit values *)

Lemma digits_value_horner n l :
  digits_value base (S n) l = digits_value base n l * base + nth n l 0.
Proof.
  revert l; induction n as [|n IH]; intros l.
  - simpl. lia.
  - change (digits_value base (S (S n)) l)
      with (nth 0 l 0 * base ^ Z.of_nat (S n) + digits_value base (S n) (tl l)).
    rewrite IH. simpl digits_value.
    rewrite Nat2Z.inj_succ, Z.pow_succ_r by lia.
    destruct l as [|x l]; simpl; [destruct n; simpl; ring|ring].
Qed.

Lemma digits_in_tl l : digits_in base l -> digits_in base (tl l).
Proof.
  intros H j. destruct l as [|x l]; simpl.
  - destruct j; simpl; lia.
  - exact (H (S j)).
Qed.

Lemma nth_drop k j (l : list Z) : nth j (drop k l) 0 = nth (k + j) l 0.
Proof.
  revert l; induction k as [|k IH]; intros l; [reflexivity|].
  destruct l as [|x l]; simpl; [destruct j; reflexivity|apply IH].
Qed.

Lemma tl_drop k (l : list Z) : tl (drop k l) = drop (S k) l.
Proof.
  revert l; induction k as [|k IH]; intros l; destruct l as [|x l]; simpl; auto.
Qed.

Lemma digits_in_drop k l : digits_in base l -> digits_in base (drop k l).
Proof. intros H j. rewrite nth_drop. apply H. Qed.

Lemma digits_value_bounds n l :
  digits_in base l -> 0 <= digits_value base n l < base ^ Z.of_nat n.
Proof.
  revert l; induction n as [|n IH]; intros l Hl; simpl; [lia|].
  pose proof (IH (tl l) (digits_in_tl l Hl)). pose proof (Hl O).
  rewrite Nat2Z.inj_succ, Z.pow_succ_r by lia.
  assert (0 < base ^ Z.of_nat n) by (apply Z.pow_pos_nonneg; lia).
  simpl in *. nia.
Qed.

Lemma digits_value_div n l :
  digits_in base l -> digits_value base (S n) l / base = digits_value base n l.
Proof.
  intros Hl. rewrite digits_value_horner. pose proof (Hl n).
  symmetry. apply (Z.div_unique_pos _ _ _ (nth n l 0)); lia.
Qed.

Lemma digits_value_mod n l :
  digits_in base l -> digits_value base (S n) l mod base ^ Z.of_nat n = digits_value base n (tl l).
Proof.
  intros Hl. simpl digits_value.
  pose proof (digits_value_bounds n (tl l) (digits_in_tl l Hl)).
  rewrite Z.add_comm, Z.mod_add by (apply Z.pow_nonzero; lia).
  apply Z.mod_small. lia.
Qed.

Lemma digits_value_nil n : digits_value base n [] = 0.
Proof. induction n as [|n IH]; simpl; [reflexivity|]. rewrite IH. lia. Qed.

#[local] Abbreviation Dn := (Z.to_nat (maxDigitsToDecode P)).

Lemma Dn_large : (4 <= Dn)%nat.
Proof. pose proof (pf_decode _ _ HP). pose proof (pf_emit2 _ _ HP). lia. Qed.

Lemma m_pow : m = base ^ Z.of_nat (Dn - 1).
Proof.
  rewrite (pf_msd_pow _ _ HP). pose proof Dn_large. f_equal. lia.
Qed.

Lemma s_pow : s = base ^ Z.of_nat (Dn - 2).
Proof.
  rewrite (pf_second_pow _ _ HP). pose proof Dn_large. f_equal. lia.
Qed.

Section Window.
Variable vis : list Z.
Hypothesis Hvis : digits_in base vis.

Lemma window_split pos pend :
  window base P vis pos pend = nth pos vis 0 * m
    + digits_value base (Dn - 1) (drop (pos + pend + 1) vis)
  /\ 0 <= digits_value base (Dn - 1) (drop (pos + pend + 1) vis) < m
  /\ 0 <= nth pos vis 0 < base.
Proof.
  split; [reflexivity|]. rewrite m_pow. split; [|apply Hvis].
  apply digits_value_bounds, digits_in_drop, Hvis.
Qed.

Lemma window_nonneg pos pend : 0 <= window base P vis pos pend.
Proof.
  destruct (window_split pos pend) as [E [B1 B2]]. rewrite E. pose proof m_pos. nia.
Qed.

Lemma window_div pos pend : window base P vis pos pend / m = nth pos vis 0.
Proof.
  destruct (window_split pos pend) as [E [B1 B2]]. rewrite E.
  symmetry. apply (Z.div_unique_pos _ _ _ (digits_value base (Dn - 1) (drop (pos + pend + 1) vis)));
    lia.
Qed.

Lemma window_mod pos pend :
  window base P vis pos pend mod m = digits_value base (Dn - 1) (drop (pos + pend + 1) vis).
Proof.
  destruct (window_split pos pend) as [E [B1 B2]]. rewrite E.
  rewrite Z.add_comm, Z.mod_add by (pose proof m_pos; lia). apply Z.mod_small. lia.
Qed.

(** The window after [pos] moves to the first digit after the pending ones. *)
Lemma window_full pos :
  window base P vis pos 0 = digits_value base Dn (drop pos vis).
Proof.
  pose proof Dn_large. replace Dn with (S (Dn - 1)) by lia.
  simpl digits_value. unfold window. rewrite nth_drop, tl_drop, m_pow.
  replace (pos + 0 + 1)%nat with (S pos) by lia. rewrite Nat.add_0_r. reflexivity.
Qed.

(** A normal pull: the window after a settle round. *)
Lemma window_settle pos pend :
  window base P vis (pos + pend + 1) 0
  = window base P vis pos pend mod m * base + nth (pos + pend + Dn) vis 0.
Proof.
  pose proof Dn_large. rewrite window_full, window_mod.
  replace Dn with (S (Dn - 1)) at 1 by lia.
  rewrite digits_value_horner, nth_drop. f_equal. f_equal. lia.
Qed.

(** A pull that keeps the leading digit: the window after a defer round. *)
Lemma window_defer pos pend :
  window base P vis pos (S pend)
  = window base P vis pos pend / m * m + window base P vis pos pend mod s * base
    + nth (pos + pend + Dn) vis 0.
Proof.
  pose proof Dn_large. rewrite window_div.
  assert (Hs : window base P vis pos pend mod s
               = digits_value base (Dn - 2) (drop (pos + S pend + 1) vis)).
  { destruct (window_split pos pend) as [E [B1 B2]]. rewrite E.
    set (X := digits_value base (Dn - 1) (drop (pos + pend + 1) vis)).
    rewrite m_eq. replace (nth pos vis 0 * (s * base) + X) with (X + nth pos vis 0 * base * s)
      by ring.
    rewrite Z.mod_add by (pose proof s_pos; lia). subst X.
    rewrite s_pow. replace (Dn - 1)%nat with (S (Dn - 2)) by lia.
    rewrite digits_value_mod by (apply digits_in_drop, Hvis).
    rewrite tl_drop. f_equal. f_equal. lia. }
  rewrite Hs. unfold window. rewrite <- Z.add_assoc. f_equal.
  replace (Dn - 1)%nat with (S (Dn - 2)) by lia.
  rewrite digits_value_horner, nth_drop. f_equal. f_equal. lia.
Qed.

(** The window before a settle round, from the window after it. *)
Lemma window_settle_back pos pend :
  window base P vis pos pend
  = nth pos vis 0 * m + window base P vis (pos + pend + 1) 0 / base.
Proof.
  pose proof Dn_large. rewrite window_full.
  replace Dn with (S (Dn - 1)) at 1 by lia.
  rewrite digits_value_div by (apply digits_in_drop, Hvis). reflexivity.
Qed.

(** The window before a defer round, from the window after it. *)
Lemma window_defer_back pos pend :
  window base P vis pos pend
  = nth pos vis 0 * m + nth (pos + pend + 1) vis 0 * s
    + window base P vis pos (S pend) mod m / base.
Proof.
  pose proof Dn_large. rewrite window_mod.
  unfold window. rewrite <- Z.add_assoc. f_equal.
  replace (Dn - 1)%nat with (S (Dn - 2)) at 1 by lia.
  simpl digits_value. rewrite nth_drop, tl_drop, s_pow. f_equal.
  - f_equal. f_equal. lia.
  - replace (Dn - 1)%nat with (S (Dn - 2)) by lia.
    rewrite digits_value_div by (apply digits_in_drop, Hvis). f_equal. f_equal. lia.
Qed.

(** The first [j] digits read by the first pulls of [decode]. *)
Lemma window_first j :
  (j < Dn)%nat ->
  digits_value base j vis mod m * base + nth j vis 0 = digits_value base (S j) vis.
Proof.
  intros Hj. rewrite digits_value_horner. f_equal. f_equal.
  apply Z.mod_small. pose proof (digits_value_bounds j vis Hvis).
  split; [lia|]. rewrite m_pow.
  apply (Z.lt_le_trans _ (base ^ Z.of_nat j)); [lia|].
  apply Z.pow_le_mono_r; lia.
Qed.
End Window.

(** *** Forward invariants of [encode] *)

Lemma emit_loop_pending k X :
  interval_ok base P (e_lo X) (e_hi X) -> pending_ok base P X ->
  interval_ok base P (e_lo (emit_loop base P k X)) (e_hi (emit_loop base P k X))
  /\ pending_ok base P (emit_loop base P k X).
Proof.
  revert X; induction k as [|k IH]; intros X Hi Hp; simpl; [auto|].
  pose proof (shift_interval _ _ Hi) as C.
  destruct (shift_step base m s (e_lo X) (e_hi X)) as [lo' hi' h|h lo' hi'|]; [| |auto];
    apply IH; simpl; try tauto; unfold pending_ok in *; simpl.
  - destruct C as [_ [_ [C3 [C4 C5]]]]. pose proof (interval_msd _ _ Hi). lia.
  - destruct (Z.ltb_spec 0 (e_digitsToAdd X)); lia.
Qed.

Lemma emit_loop_end_keep k X :
  interval_ok base P (e_lo X) (e_hi X) -> pending_ok base P X ->
  (0 < e_digitsToAdd X -> e_hi X / m = e_digitsToAddHiMsd X) ->
  (0 < e_digitsToAdd (emit_loop base P k X) ->
   e_hi (emit_loop base P k X) / m = e_digitsToAddHiMsd (emit_loop base P k X)).
Proof.
  revert X; induction k as [|k IH]; intros X Hi Hp He; simpl; [auto|].
  pose proof (shift_interval _ _ Hi) as C.
  destruct (shift_step base m s (e_lo X) (e_hi X)) as [lo' hi' h|h lo' hi'|]; [| |auto];
    apply IH; simpl; try tauto; unfold pending_ok in *; simpl.
  - destruct C as [_ [_ [C3 [C4 C5]]]]. pose proof (interval_msd _ _ Hi). lia.
  - intros. lia.
  - destruct (Z.ltb_spec 0 (e_digitsToAdd X)); lia.
  - destruct (Z.ltb_spec 0 (e_digitsToAdd X)); lia.
Qed.

Lemma emit_loop_end k X :
  interval_ok base P (e_lo X) (e_hi X) -> pending_ok base P X ->
  (0 < e_digitsToAdd (emit_loop base P (S k) X) ->
   e_hi (emit_loop base P (S k) X) / m = e_digitsToAddHiMsd (emit_loop base P (S k) X)).
Proof.
  intros Hi Hp. simpl.
  pose proof (shift_interval _ _ Hi) as C.
  destruct (shift_step base m s (e_lo X) (e_hi X)) as [lo' hi' h|h lo' hi'|] eqn:Es.
  - destruct (emit_loop_pending 1 X Hi Hp) as [Hi' Hp']. simpl in Hi', Hp'. rewrite Es in Hi', Hp'.
    apply emit_loop_end_keep; simpl; try assumption.
    intros _. destruct C as [_ [_ [_ [C4 C5]]]]. lia.
  - destruct (emit_loop_pending 1 X Hi Hp) as [Hi' Hp']. simpl in Hi', Hp'. rewrite Es in Hi', Hp'.
    apply emit_loop_end_keep; simpl; try assumption.
    destruct Hp as [Hp _]. destruct (Z.ltb_spec 0 (e_digitsToAdd X)); lia.
  - intros Hd. destruct Hp as [_ Hp]. specialize (Hp Hd). lia.
Qed.

Lemma pow_divide i j : (i <= j)%nat -> (base ^ Z.of_nat i | base ^ Z.of_nat j).
Proof.
  intros H. exists (base ^ (Z.of_nat j - Z.of_nat i)).
  rewrite <- Z.pow_add_r by lia. f_equal. lia.
Qed.

#[local] Abbreviation en := (Z.to_nat (maxDigitsToEmit P)).

Lemma emit_pow : base ^ maxDigitsToEmit P = base ^ Z.of_nat en.
Proof. pose proof (pf_emit2 _ _ HP). f_equal. lia. Qed.

Lemma m_div_pow i : (i <= en)%nat -> (base ^ Z.of_nat i | m).
Proof.
  intros H. apply (Z.divide_trans _ (base ^ Z.of_nat en)); [apply pow_divide; lia|].
  apply Z.mod_divide; [apply Z.pow_nonzero; lia|]. rewrite <- emit_pow. exact (pf_emit_div _ _ HP).
Qed.

Lemma s_div_pow i : (i + 1 <= en)%nat -> (base ^ Z.of_nat i | s).
Proof.
  intros H. pose proof (pf_emit2 _ _ HP).
  apply (Z.divide_trans _ (base ^ (maxDigitsToEmit P - 1))).
  - replace (maxDigitsToEmit P - 1) with (Z.of_nat (en - 1)) by lia. apply pow_divide; lia.
  - apply Z.mod_divide; [apply Z.pow_nonzero; lia|]. exact (pf_emit_div2 _ _ HP).
Qed.

Lemma mod_divide_keep a b d : 0 < b -> (d | a) -> (d | b) -> (d | a mod b).
Proof.
  intros Hb' Ha Hb2. rewrite Z.mod_eq by lia.
  apply Z.divide_sub_r; [exact Ha|]. apply Z.divide_mul_l. exact Hb2.
Qed.

Lemma shift_divide i lo hi :
  interval_ok base P lo hi -> (base ^ Z.of_nat i | lo) -> (i + 1 <= en)%nat ->
  match shift_step base m s lo hi with
  | Defer lo' _ _ | Settle _ lo' _ => (base ^ Z.of_nat (S i) | lo')
  | Stop => True
  end.
Proof.
  intros Hi Hd Hn. pose proof (shift_cases lo hi ltac:(unfold interval_ok in Hi; lia)
                                 ltac:(unfold interval_ok in Hi; lia)) as C.
  pose proof s_pos. pose proof m_pos.
  destruct (shift_step base m s lo hi) as [lo' hi' h|h lo' hi'|]; [| |exact I].
  - destruct C as [_ [_ [_ [_ [C5 _]]]]]. subst lo'.
    apply Z.divide_add_r.
    + apply Z.divide_mul_r. apply m_div_pow. lia.
    + rewrite Nat2Z.inj_succ, Z.pow_succ_r, (Z.mul_comm base) by lia.
      apply Z.mul_divide_mono_r. apply mod_divide_keep; [lia|exact Hd|apply s_div_pow; lia].
  - destruct C as [_ [_ [C3 _]]]. subst lo'.
    rewrite Nat2Z.inj_succ, Z.pow_succ_r, (Z.mul_comm base) by lia.
    apply Z.mul_divide_mono_r. apply mod_divide_keep; [lia|exact Hd|apply m_div_pow; lia].
Qed.

Lemma shift_iter_divide j i lo hi :
  interval_ok base P lo hi -> (base ^ Z.of_nat i | lo) -> (i + j <= en)%nat ->
  fst (shift_iter base m s j lo hi) / m < snd (shift_iter base m s j lo hi) / m
  \/ ((base ^ Z.of_nat (i + j) | fst (shift_iter base m s j lo hi))
      /\ snd (shift_iter base m s j lo hi) - fst (shift_iter base m s j lo hi)
         = base ^ Z.of_nat j * (hi - lo)).
Proof.
  revert i lo hi; induction j as [|j IH]; intros i lo hi Hi Hd Hn; simpl.
  - right. rewrite Nat.add_0_r. split; [exact Hd|lia].
  - pose proof (shift_interval _ _ Hi) as C. pose proof (shift_divide i lo hi Hi Hd ltac:(lia)) as Dv.
    destruct (shift_step base m s lo hi) as [lo' hi' h|h lo' hi'|].
    + destruct C as [C1 [C2 _]].
      destruct (IH (S i) lo' hi' C1 Dv ltac:(lia)) as [I|[I1 I2]]; [left; exact I|right].
      split; [replace (i + S j)%nat with (S i + j)%nat by lia; exact I1|].
      rewrite I2, C2, Nat2Z.inj_succ, Z.pow_succ_r by lia. ring.
    + destruct C as [C1 [C2 _]].
      destruct (IH (S i) lo' hi' C1 Dv ltac:(lia)) as [I|[I1 I2]]; [left; exact I|right].
      split; [replace (i + S j)%nat with (S i + j)%nat by lia; exact I1|].
      rewrite I2, C2, Nat2Z.inj_succ, Z.pow_succ_r by lia. ring.
    + left. simpl. lia.
Qed.

(** At the end of a per-byte iteration [lo] does not exceed the lowest
    value with the leading digit of [hi]. *)
Lemma emit_settled lo hi b :
  start_ok base P lo hi -> byte_ok b ->
  fst (shift_iter base m s en (fst (narrow lo hi b)) (snd (narrow lo hi b)))
  <= snd (shift_iter base m s en (fst (narrow lo hi b)) (snd (narrow lo hi b))) / m * m.
Proof.
  intros Hs Hb'. destruct (narrow_shift_start _ _ _ Hs Hb') as [N1 [N2 _]].
  destruct Hs as [Hi0 Hw]. unfold byte_ok in Hb'.
  destruct (narrow_spec lo hi b Hb' ltac:(unfold interval_ok in Hi0; pose proof s_large; lia))
    as [_ [_ [_ [N4 _]]]].
  set (lo0 := fst (narrow lo hi b)) in *. set (hi0 := snd (narrow lo hi b)) in *.
  pose proof (shift_iter_divide en 0 lo0 hi0 N1 ltac:(simpl; apply Z.divide_1_l) ltac:(lia))
    as [C|[C1 C2]].
  - set (lo' := fst (shift_iter base m s en lo0 hi0)) in *.
    set (hi' := snd (shift_iter base m s en lo0 hi0)) in *.
    pose proof m_pos. pose proof (Z.div_mod lo' m ltac:(lia)).
    pose proof (Z.mod_pos_bound lo' m ltac:(lia)). nia.
  - set (lo' := fst (shift_iter base m s en lo0 hi0)) in *.
    set (hi' := snd (shift_iter base m s en lo0 hi0)) in *.
    simpl in C1. destruct N2 as [I1 [I2 I3]].
    pose proof m_pos. pose proof s_large. pose proof (pf_settled _ _ HP) as Hq.
    rewrite emit_pow in Hq.
    set (E := base ^ Z.of_nat en) in *.
    assert (HE : 0 < E) by (apply Z.pow_pos_nonneg; lia).
    destruct (m_div_pow en ltac:(lia)) as [q Hq'].
    fold E in Hq'. rewrite Hq', Z.div_mul in Hq by lia.
    assert (Hx : q <= hi0 - lo0 + 1) by lia.
    assert (HL : lo' / m <= hi' / m) by (apply Z.div_le_mono; lia).
    destruct (Z.eq_dec (lo' / m) (hi' / m)) as [Eq|Ne].
    + pose proof (Z.div_mod lo' m ltac:(lia)) as Dl. pose proof (Z.div_mod hi' m ltac:(lia)) as Dh.
      pose proof (Z.mod_pos_bound lo' m ltac:(lia)). pose proof (Z.mod_pos_bound hi' m ltac:(lia)).
      assert (Hr : (E | lo' mod m)).
      { apply mod_divide_keep; [lia|exact C1|rewrite Hq'; apply Z.divide_factor_r]. }
      destruct Hr as [k Hk].
      assert (lo' mod m + E * (hi0 - lo0) <= m - 1) by nia.
      assert (k = 0) by nia. subst k. rewrite Eq in Dl. lia.
    + pose proof (Z.div_mod lo' m ltac:(lia)).
      pose proof (Z.mod_pos_bound lo' m ltac:(lia)). nia.
Qed.

Lemma narrowed_pending X lo' hi' :
  e_lo X <= lo' -> hi' <= e_hi X -> pending_ok base P X ->
  pending_ok base P (mkEnc (e_bytesEncoded X) lo' hi' (e_digitsToAdd X)
                       (e_digitsToAddHiMsd X) (e_out X)).
Proof.
  intros H1 H2 [Hp1 Hp2]. pose proof m_pos. split; [exact Hp1|]. simpl. intros Hd.
  destruct (Hp2 Hd). split.
  - apply (Z.le_trans _ (e_lo X / m)); [lia|]. apply Z.div_le_mono; lia.
  - apply (Z.le_trans _ (e_hi X / m)); [|lia]. apply Z.div_le_mono; lia.
Qed.

Lemma en_succ : en = S (en - 1).
Proof. pose proof (pf_emit2 _ _ HP). lia. Qed.

Lemma encode_byte_enc_ok X b :
  enc_ok base P X -> byte_ok b -> enc_ok base P (encode_byte base P X b).
Proof.
  intros [Hs [Hp He]] Hb'.
  pose proof (encode_byte_start X b Hs Hb') as S1.
  destruct (narrow_shift_start _ _ _ Hs Hb') as [N1 _].
  pose proof (emit_settled _ _ _ Hs Hb') as F1.
  destruct (narrow_spec (e_lo X) (e_hi X) b Hb'
              ltac:(destruct Hs as [_ W]; pose proof s_large; lia)) as [A1 [_ [A3 _]]].
  revert S1. unfold encode_byte. destruct (narrow (e_lo X) (e_hi X) b) as [lo' hi'] eqn:En.
  simpl in N1, F1, A1, A3 |- *. intros S1.
  set (X0 := mkEnc (e_bytesEncoded X) lo' hi' (e_digitsToAdd X) (e_digitsToAddHiMsd X) (e_out X)).
  assert (Hp0 : pending_ok base P X0) by (apply narrowed_pending; assumption).
  destruct (emit_loop_pending en X0 N1 Hp0) as [_ Hp1].
  destruct (emit_loop_shift en X0) as [L1 [L2 _]]. simpl in L1, L2.
  split; [exact S1|split; [exact Hp1|split]]; simpl.
  - rewrite en_succ. apply emit_loop_end; [exact N1|exact Hp0].
  - rewrite L1, L2. exact F1.
Qed.

Lemma emit_loop_count k X :
  interval_ok base P (e_lo X) (e_hi X) -> pending_ok base P X ->
  (enc_count X <= enc_count (emit_loop base P k X))%nat
  /\ (enc_count (emit_loop base P k X) = enc_count X -> emit_loop base P k X = X).
Proof.
  revert X; induction k as [|k IH]; intros X Hi Hp; simpl; [split; [lia|auto]|].
  destruct (emit_loop_pending 1 X Hi Hp) as [Hi' Hp']. simpl in Hi', Hp'.
  destruct Hp as [Hp0 _].
  destruct (shift_step base m s (e_lo X) (e_hi X)) as [lo' hi' h|h lo' hi'|].
  - destruct (IH _ Hi' Hp') as [I1 I2].
    assert (Hc : enc_count (mkEnc (e_bytesEncoded X) lo' hi' (e_digitsToAdd X + 1) h (e_out X))
                 = S (enc_count X)).
    { unfold enc_count, e_pos, e_pend; simpl. lia. }
    split; [lia|]. intros E. lia.
  - destruct (IH _ Hi' Hp') as [I1 I2].
    match type of I1 with (_ <= enc_count (emit_loop _ _ _ ?Y))%nat =>
      assert (Hc : enc_count Y = S (enc_count X)) end.
    { unfold enc_count, e_pos, e_pend; simpl. rewrite !length_app. simpl.
      destruct (Z.ltb_spec 0 (e_digitsToAdd X)).
      - rewrite repeat_length. lia.
      - simpl. replace (e_digitsToAdd X) with 0 by lia. simpl. lia. }
    split; [lia|]. intros E. lia.
  - split; [lia|auto].
Qed.

(** Two consecutive bytes cannot both leave the inner loop without a
    settle or defer round. *)
Lemma encode_byte_count X b :
  enc_ok base P X -> byte_ok b ->
  (enc_count X <= enc_count (encode_byte base P X b))%nat
  /\ (enc_count (encode_byte base P X b) = enc_count X ->
      e_lo (encode_byte base P X b) = fst (narrow (e_lo X) (e_hi X) b)
      /\ e_hi (encode_byte base P X b) = snd (narrow (e_lo X) (e_hi X) b)
      /\ s + 1 <= e_hi (encode_byte base P X b) - e_lo (encode_byte base P X b)).
Proof.
  intros [Hs [Hp He]] Hb'.
  pose proof (encode_byte_start X b Hs Hb') as S1.
  destruct (narrow_shift_start _ _ _ Hs Hb') as [N1 _].
  destruct (narrow_spec (e_lo X) (e_hi X) b Hb'
              ltac:(destruct Hs as [_ W]; pose proof s_large; lia)) as [A1 [_ [A3 _]]].
  revert S1. unfold encode_byte. destruct (narrow (e_lo X) (e_hi X) b) as [lo' hi'] eqn:En.
  simpl in N1, A1, A3 |- *. intros S1.
  set (X0 := mkEnc (e_bytesEncoded X) lo' hi' (e_digitsToAdd X) (e_digitsToAddHiMsd X) (e_out X)).
  assert (Hp0 : pending_ok base P X0) by (apply narrowed_pending; assumption).
  destruct (emit_loop_count en X0 N1 Hp0) as [C1 C2].
  unfold enc_count, e_pos, e_pend in C1, C2 |- *. simpl in *.
  split; [exact C1|]. intros E.
  specialize (C2 E). fold X0 in S1. rewrite C2 in S1 |- *. simpl in S1 |- *.
  split; [reflexivity|split; [reflexivity|]]. destruct S1 as [_ S1]. exact S1.
Qed.

(** Over two consecutive bytes at least one round settles or defers. *)
Lemma two_bytes_count X b1 b2 :
  enc_ok base P X -> byte_ok b1 -> byte_ok b2 ->
  (enc_count X < enc_count (encode_byte base P (encode_byte base P X b1) b2))%nat.
Proof.
  intros Hx H1 H2. pose proof (encode_byte_enc_ok X b1 Hx H1) as Hy.
  destruct (encode_byte_count X b1 Hx H1) as [C1 D1].
  destruct (encode_byte_count _ b2 Hy H2) as [C2 D2].
  set (Y := encode_byte base P X b1) in *.
  destruct (Nat.eq_dec (enc_count X) (enc_count (encode_byte base P Y b2))) as [E|E]; [|lia].
  exfalso. destruct (D1 ltac:(lia)) as [L1 [U1 W1]]. destruct (D2 ltac:(lia)) as [L2 [U2 W2]].
  destruct Hx as [[[I1 [I2 I3]] I4] _]. destruct Hy as [[[J1 [J2 J3]] J4] _].
  pose proof s_large. pose proof (pf_two_bytes _ _ HP).
  destruct (narrow_spec (e_lo X) (e_hi X) b1 H1 ltac:(lia)) as [_ [_ [_ [_ N1]]]].
  destruct (narrow_spec (e_lo Y) (e_hi Y) b2 H2 ltac:(lia)) as [_ [_ [_ [_ N2]]]].
  rewrite <- L1, <- U1 in N1. rewrite <- L2, <- U2 in N2. lia.
Qed.

Lemma fold_count bs X :
  enc_ok base P X -> Forall byte_ok bs ->
  enc_ok base P (fold_left (encode_byte base P) bs X)
  /\ (enc_count X <= enc_count (fold_left (encode_byte base P) bs X))%nat.
Proof.
  revert X; induction bs as [|b bs IH]; intros X Hx Hbs; simpl; [split; [exact Hx|lia]|].
  inversion Hbs as [|? ? Hb1 Hr]; subst.
  destruct (IH _ (encode_byte_enc_ok X b Hx Hb1) Hr) as [A B].
  destruct (encode_byte_count X b Hx Hb1) as [C _]. split; [exact A|lia].
Qed.

Lemma init_enc_ok : enc_ok base P (enc_init base P).
Proof.
  split; [exact init_start_ok|]. unfold pending_ok, byte_end_ok; simpl.
  split; [lia|]. split; [lia|]. pose proof m_pos. pose proof m_eq.
  apply Z.mul_nonneg_nonneg; [apply Z.div_pos|]; nia.
Qed.

(** *** The digits [decode] reads, traced back through [encode] *)

Lemma nth_after_middle (out l : list Z) h j :
  nth (length out + S j) (out ++ h :: l) 0 = nth j l 0.
Proof.
  rewrite app_nth2 by lia. replace (length out + S j - length out)%nat with (S j) by lia.
  reflexivity.
Qed.

Lemma good_settle_back vis X h lo' hi' :
  digits_in base vis -> interval_ok base P (e_lo X) (e_hi X) -> pending_ok base P X ->
  shift_step base m s (e_lo X) (e_hi X) = Settle h lo' hi' ->
  good base P vis
    (mkEnc (e_bytesEncoded X) lo' hi'
       (if 0 <? e_digitsToAdd X then 0 else e_digitsToAdd X) (e_digitsToAddHiMsd X)
       (e_out X ++ [h] ++
        (if 0 <? e_digitsToAdd X then
           repeat (if h =? e_digitsToAddHiMsd X then 0 else base - 1)
             (Z.to_nat (e_digitsToAdd X))
         else []))) ->
  good base P vis X.
Proof.
  intros Hv Hi [Hd0 Hp] Es [[t Ht] [[W1 W2] _]].
  pose proof (shift_cases (e_lo X) (e_hi X) ltac:(unfold interval_ok in Hi; lia)
                ltac:(unfold interval_ok in Hi; lia)) as C.
  rewrite Es in C. destruct C as [C1 [C2 [C3 C4]]]. subst lo' hi'.
  set (r := if h =? e_digitsToAddHiMsd X then 0 else base - 1) in *.
  set (pend := Z.to_nat (e_digitsToAdd X)) in *.
  assert (Hpl : (if 0 <? e_digitsToAdd X then repeat r pend else []) = repeat r pend).
  { destruct (Z.ltb_spec 0 (e_digitsToAdd X)); [reflexivity|].
    unfold pend. replace (e_digitsToAdd X) with 0 by lia. reflexivity. }
  rewrite Hpl in Ht, W1, W2. unfold e_pos, e_pend in W1, W2. simpl in W1, W2.
  rewrite length_app in W1, W2. simpl in W1, W2. rewrite repeat_length in W1, W2.
  replace (Z.to_nat (if 0 <? e_digitsToAdd X then 0 else e_digitsToAdd X)) with 0%nat in W1, W2
    by (destruct (Z.ltb_spec 0 (e_digitsToAdd X)); lia).
  simpl in Ht. rewrite <- app_assoc in Ht. simpl in Ht. set (pos := length (e_out X)) in *.
  assert (Hh : nth pos vis 0 = h) by (rewrite Ht; apply nth_middle).
  split; [exists (h :: repeat r pend ++ t); exact Ht|split].
  - unfold e_pos, e_pend. fold pos pend.
    rewrite (window_settle_back vis Hv pos pend), Hh.
    replace (pos + pend + 1)%nat with (pos + S pend)%nat by lia.
    set (w := window base P vis (pos + S pend) 0) in *.
    pose proof m_pos.
    assert (L1 : e_lo X mod m <= w / base).
    { rewrite <- (Z.div_mul (e_lo X mod m) base) by lia. apply Z.div_le_mono; lia. }
    assert (L2 : w / base <= e_hi X mod m).
    { rewrite <- (Z.div_mul (e_hi X mod m) base) by lia. apply Z.div_le_mono; lia. }
    pose proof (Z.div_mod (e_lo X) m ltac:(lia)). pose proof (Z.div_mod (e_hi X) m ltac:(lia)).
    rewrite C2. rewrite C1 in *. nia.
  - intros Hd. exists r. split.
    + intros j Hj. unfold e_pos, e_pend in *. fold pos pend in Hj |- *.
      rewrite Ht. replace (pos + j)%nat with (length (e_out X) + S (j - 1))%nat by (unfold pos; lia).
      rewrite nth_after_middle, app_nth1 by (rewrite repeat_length; lia).
      apply nth_repeat_lt. lia.
    + unfold e_pos. fold pos. rewrite Hh. unfold r.
      destruct (Z.eqb_spec h (e_digitsToAddHiMsd X)) as [E|E]; [left; auto|right].
      destruct (Hp Hd). rewrite C2 in *. split; [lia|reflexivity].
Qed.

Lemma good_defer_back vis X h lo' hi' :
  digits_in base vis -> interval_ok base P (e_lo X) (e_hi X) -> pending_ok base P X ->
  shift_step base m s (e_lo X) (e_hi X) = Defer lo' hi' h ->
  good base P vis (mkEnc (e_bytesEncoded X) lo' hi' (e_digitsToAdd X + 1) h (e_out X)) ->
  good base P vis X.
Proof.
  intros Hv Hi [Hd0 Hp] Es [Hpre [[W1 W2] Hr]].
  pose proof (shift_interval _ _ Hi) as C. rewrite Es in C.
  destruct C as [_ [_ [_ [_ [C5 C6]]]]].
  pose proof (shift_cases (e_lo X) (e_hi X) ltac:(unfold interval_ok in Hi; lia)
                ltac:(unfold interval_ok in Hi; lia)) as C.
  rewrite Es in C. destruct C as [_ [D2 [D3 [_ [D5 D6]]]]]. subst lo' hi'.
  unfold e_pos, e_pend in *. simpl in Hpre, W1, W2, Hr.
  set (pos := length (e_out X)) in *.
  replace (Z.to_nat (e_digitsToAdd X + 1)) with (S (Z.to_nat (e_digitsToAdd X))) in W1, W2, Hr
    by lia.
  set (pend := Z.to_nat (e_digitsToAdd X)) in *.
  destruct (Hr ltac:(lia)) as [r [Hj Hc]].
  assert (Hn : nth (pos + pend + 1) vis 0 = r) by (rewrite <- (Hj (S pend)) by lia; f_equal; lia).
  split; [exact Hpre|split].
  - unfold e_pos, e_pend; fold pos pend. rewrite (window_defer_back vis Hv pos pend), Hn.
    set (w := window base P vis pos (S pend)) in *.
    pose proof (window_div vis Hv pos (S pend)) as Wd. fold w in Wd.
    pose proof m_pos. pose proof s_pos. pose proof m_eq.
    pose proof (Z.div_mod w m ltac:(lia)) as Dw. pose proof (Z.mod_pos_bound w m ltac:(lia)).
    destruct (digits_of (e_lo X) ltac:(unfold interval_ok in Hi; lia)) as [Dl [_ [Bl _]]].
    destruct (digits_of (e_hi X) ltac:(unfold interval_ok in Hi; lia)) as [Dh [_ [Bh _]]].
    rewrite D2 in Dl. rewrite D3 in Dh.
    assert (Q : (w mod m) / base < s) by (apply Z.div_lt_upper_bound; lia).
    set (L := e_lo X / m) in *. set (U := e_hi X / m) in *.
    destruct Hc as [[Hc1 Hc2]|[Hc1 Hc2]]; rewrite Hc1 in Wd; subst r.
    + assert (w mod m <= e_hi X mod s * base) by nia.
      assert ((w mod m) / base <= e_hi X mod s).
      { rewrite <- (Z.div_mul (e_hi X mod s) base) by lia. apply Z.div_le_mono; lia. }
      assert (0 <= (w mod m) / base) by (apply Z.div_pos; lia).
      rewrite Hc1. split; [|nia].
      pose proof (Z.mod_pos_bound (e_lo X) s ltac:(lia)). nia.
    + assert (lo_le : e_lo X mod s * base <= w mod m) by nia.
      assert (e_lo X mod s <= (w mod m) / base).
      { rewrite <- (Z.div_mul (e_lo X mod s) base) by lia. apply Z.div_le_mono; lia. }
      rewrite Hc1. split; [nia|].
      pose proof (Z.mod_pos_bound (e_hi X) s ltac:(lia)). nia.
  - intros Hd. exists r. unfold e_pos, e_pend; fold pos pend.
    split; [intros j Hj'; apply Hj; lia|].
    destruct (Hp Hd) as [P1 P2]. replace (e_digitsToAddHiMsd X) with h by lia. exact Hc.
Qed.

Lemma good_emit_back vis k X :
  digits_in base vis -> interval_ok base P (e_lo X) (e_hi X) -> pending_ok base P X ->
  good base P vis (emit_loop base P k X) -> good base P vis X.
Proof.
  revert X; induction k as [|k IH]; intros X Hv Hi Hp; simpl; [auto|].
  destruct (emit_loop_pending 1 X Hi Hp) as [Hi' Hp']. simpl in Hi', Hp'.
  destruct (shift_step base m s (e_lo X) (e_hi X)) as [lo' hi' h|h lo' hi'|] eqn:Es;
    [| |auto]; intros G; specialize (IH _ Hv Hi' Hp' G).
  - exact (good_defer_back vis X h lo' hi' Hv Hi Hp Es IH).
  - exact (good_settle_back vis X h lo' hi' Hv Hi Hp Es IH).
Qed.

(** The window of a state from which the byte [b] is encoded lies in the
    interval [b] narrows it to. *)
Lemma good_byte_back vis X b :
  digits_in base vis -> enc_ok base P X -> byte_ok b ->
  good base P vis (encode_byte base P X b) ->
  good base P vis X
  /\ fst (narrow (e_lo X) (e_hi X) b) <= window base P vis (e_pos X) (e_pend X)
     <= snd (narrow (e_lo X) (e_hi X) b).
Proof.
  intros Hv [Hs [Hp _]] Hb'.
  destruct (narrow_shift_start _ _ _ Hs Hb') as [N1 _].
  destruct (narrow_spec (e_lo X) (e_hi X) b Hb'
              ltac:(destruct Hs as [_ W]; pose proof s_large; lia)) as [A1 [_ [A3 _]]].
  unfold encode_byte. destruct (narrow (e_lo X) (e_hi X) b) as [lo' hi'] eqn:En.
  simpl in N1, A1, A3 |- *.
  set (X0 := mkEnc (e_bytesEncoded X) lo' hi' (e_digitsToAdd X) (e_digitsToAddHiMsd X) (e_out X)).
  assert (Hp0 : pending_ok base P X0) by (apply narrowed_pending; assumption).
  intros G.
  assert (G0 : good base P vis X0).
  { apply (good_emit_back vis en X0 Hv N1 Hp0).
    destruct G as [G1 [G2 G3]]. unfold good, e_pos, e_pend in *. simpl in *.
    split; [exact G1|split; [exact G2|exact G3]]. }
  destruct G0 as [G1 [[G2 G3] G4]]. unfold e_pos, e_pend in *. simpl in *.
  split; [|split; assumption]. split; [exact G1|split; [unfold e_pos, e_pend; split; lia|exact G4]].
Qed.

Lemma good_fold_back vis bs X :
  digits_in base vis -> enc_ok base P X -> Forall byte_ok bs ->
  good base P vis (fold_left (encode_byte base P) bs X) -> good base P vis X.
Proof.
  revert X; induction bs as [|b bs IH]; intros X Hv Hx Hbs; simpl; [auto|].
  inversion Hbs as [|? ? Hb1 Hr]; subst. intros G.
  apply (IH _ Hv (encode_byte_enc_ok X b Hx Hb1) Hr) in G.
  exact (proj1 (good_byte_back vis X b Hv Hx Hb1 G)).
Qed.

(** The digits an encoder state resolves to when the input ends there. *)
Lemma good_final X : enc_ok base P X -> good base P (vis_of base P X) X.
Proof.
  intros [Hs [[Hd0 Hp] [He1 He2]]]. unfold vis_of, good, e_pos, e_pend. cbn [app].
  set (pend := Z.to_nat (e_digitsToAdd X)).
  split; [eexists; reflexivity|split].
  - unfold window. rewrite nth_middle.
    rewrite skipn_all2 by (rewrite length_app; simpl; rewrite repeat_length; lia).
    rewrite digits_value_nil, Z.add_0_r.
    pose proof m_pos. split; [exact He2|].
    rewrite Z.mul_comm. apply Z.mul_div_le. lia.
  - intros Hd. exists 0. split.
    + intros j Hj. replace (length (e_out X) + j)%nat with (length (e_out X) + S (j - 1))%nat
        by lia.
      rewrite nth_after_middle. apply nth_repeat_lt. lia.
    + left. rewrite nth_middle. split; [exact (He1 Hd)|reflexivity].
Qed.

(** *** [decode] on the digits of [encode] *)

Lemma D_eq : maxDigitsToDecode P = Z.of_nat Dn.
Proof. pose proof (pf_decode _ _ HP). pose proof (pf_emit2 _ _ HP). lia. Qed.

Lemma emit_request k X d :
  interval_ok base P (e_lo X) (e_hi X) -> 0 <= e_digitsToAdd X ->
  d_lo d = e_lo X -> d_hi d = e_hi X ->
  exists a c,
    e_pos (emit_loop base P k X) = fst (ops a c (e_pos X) (e_pend X))
    /\ e_pend (emit_loop base P k X) = snd (ops a c (e_pos X) (e_pend X))
    /\ (e_lo X / m <> e_hi X / m -> a = 0%nat)
    /\ request_loop base P k d
       = mkDec (d_bytesDecoded d) (e_lo (emit_loop base P k X)) (e_hi (emit_loop base P k X))
           (d_i d) (d_digitsToDecode d) (d_requestedDigits d + Z.of_nat (a + c))
           (d_requestedDigitsKeepMsd d + Z.of_nat c) (d_isLastDigit d).
Proof.
  revert X d; induction k as [|k IH]; intros X d Hi Hd Hl Hh.
  - exists 0%nat, 0%nat. simpl. rewrite Nat.add_0_r.
    split; [reflexivity|split; [reflexivity|split; [auto|]]].
    destruct d; simpl in *; subst. f_equal; lia.
  - pose proof (shift_interval _ _ Hi) as C. simpl. rewrite Hl, Hh.
    destruct (shift_step base m s (e_lo X) (e_hi X)) as [lo' hi' h|h lo' hi'|] eqn:Es.
    + destruct C as [C1 [_ [C3 [C4 [_ C6]]]]].
      match goal with |- context [emit_loop base P k ?Y] =>
        match goal with |- context [request_loop base P k ?e] =>
          destruct (IH Y e C1 ltac:(simpl; lia) eq_refl eq_refl) as [a [c [E1 [E2 [E3 E4]]]]] end end.
      simpl in E3. specialize (E3 ltac:(lia)). subst a.
      exists 0%nat, (S c). unfold e_pos, e_pend in *. simpl in *.
      rewrite E1, E2, E4. replace (Z.to_nat (e_digitsToAdd X + 1)) with (S (Z.to_nat (e_digitsToAdd X)))
        by lia.
      split; [reflexivity|split; [simpl; lia|split; [auto|]]].
      f_equal; lia.
    + destruct C as [C1 [_ [C3 _]]].
      match goal with |- context [emit_loop base P k ?Y] =>
        match goal with |- context [request_loop base P k ?e] =>
          destruct (IH Y e C1 ltac:(simpl; destruct (Z.ltb_spec 0 (e_digitsToAdd X)); lia)
                      eq_refl eq_refl) as [a [c [E1 [E2 [E3 E4]]]]] end end.
      exists (S a), c. unfold e_pos, e_pend in *. simpl in *.
      rewrite E1, E2, E4.
      assert (Hpl : length (e_out X ++ h :: (if 0 <? e_digitsToAdd X then
                      repeat (if h =? e_digitsToAddHiMsd X then 0 else base - 1)
                        (Z.to_nat (e_digitsToAdd X)) else []))
                    = (length (e_out X) + Z.to_nat (e_digitsToAdd X) + 1)%nat).
      { rewrite length_app. simpl. destruct (Z.ltb_spec 0 (e_digitsToAdd X)).
        - rewrite repeat_length. lia.
        - simpl. replace (Z.to_nat (e_digitsToAdd X)) with 0%nat by lia. lia. }
      rewrite Hpl.
      replace (Z.to_nat (if 0 <? e_digitsToAdd X then 0 else e_digitsToAdd X)) with 0%nat
        by (destruct (Z.ltb_spec 0 (e_digitsToAdd X)); lia).
      split; [destruct a; simpl; lia|split; [destruct a; reflexivity|split; [lia|]]].
      f_equal; lia.
    + exists 0%nat, 0%nat. simpl. rewrite Nat.add_0_r.
      split; [reflexivity|split; [reflexivity|split; [auto|]]].
      destruct d; simpl in *; subst. f_equal; lia.
Qed.

Section Reads.
Variable vis : list Z.
Variable text : list Z.
Variable tbl : gmap Z Z.
Variable parity : Z.
Hypothesis Hv : digits_in base vis.
Hypothesis Htext : forall j, (j < length vis)%nat -> tbl !! nth j text 0 = Some (nth j vis 0).

#[local] Abbreviation Lz := (Z.of_nat (length vis)).
#[local] Abbreviation D := (maxDigitsToDecode P).

(** One round of the inner [while] loop reads the digit [vis[i]], also past
    the end of the text. *)
Lemma pull_read st n :
  d_i st = Z.of_nat n -> d_isLastDigit st = (Lz + D - 2 <? Z.of_nat n) ->
  pull_digit tbl text Lz base P st =
  if d_requestedDigits st =? d_requestedDigitsKeepMsd st then
    Pulled (mkDec (d_bytesDecoded st) (d_lo st) (d_hi st) (Z.of_nat n + 1)
              (d_digitsToDecode st / m * m + Z.rem (d_digitsToDecode st) s * base + nth n vis 0)
              (d_requestedDigits st - 1) (d_requestedDigitsKeepMsd st - 1)
              (Lz + D - 2 <? Z.of_nat n + 1))
  else
    Pulled (mkDec (d_bytesDecoded st) (d_lo st) (d_hi st) (Z.of_nat n + 1)
              (Z.rem (d_digitsToDecode st) m * base + nth n vis 0)
              (d_requestedDigits st - 1) (d_requestedDigitsKeepMsd st)
              (Lz + D - 2 <? Z.of_nat n + 1)).
Proof.
  intros Hi Hf. pose proof D_eq. pose proof Dn_large. unfold pull_digit. rewrite Hi.
  destruct (Z.ltb_spec (Z.of_nat n) Lz) as [Hlt|Hge].
  - unfold charCodeAt. rewrite Nat2Z.id, Htext by lia.
    assert (F : d_isLastDigit st = (Lz + D - 2 <? Z.of_nat n + 1)).
    { rewrite Hf. destruct (Z.ltb_spec (Lz + D - 2) (Z.of_nat n));
        destruct (Z.ltb_spec (Lz + D - 2) (Z.of_nat n + 1)); lia. }
    rewrite F. reflexivity.
  - rewrite (nth_overflow vis) by lia.
    assert (F : (d_isLastDigit st || (Z.of_nat n - Lz =? D - 2)) = (Lz + D - 2 <? Z.of_nat n + 1)).
    { rewrite Hf. destruct (Z.ltb_spec (Lz + D - 2) (Z.of_nat n));
        destruct (Z.eqb_spec (Z.of_nat n - Lz) (D - 2));
        destruct (Z.ltb_spec (Lz + D - 2) (Z.of_nat n + 1)); simpl; lia. }
    rewrite F. reflexivity.
Qed.

Lemma pull_keep k lo hi pos pend R :
  pull_digit tbl text Lz base P (dec_at base P vis k lo hi pos pend R R)
  = Pulled (dec_at base P vis k lo hi pos (S pend) (R - 1) (R - 1)).
Proof.
  pose proof D_eq. pose proof m_pos. pose proof s_pos.
  rewrite (pull_read _ (pos + pend + Dn)); simpl; [|lia|f_equal; lia].
  rewrite Z.eqb_refl. unfold dec_at.
  rewrite rem_nonneg by (try apply window_nonneg; auto; lia).
  rewrite <- (window_defer vis Hv pos pend).
  f_equal. f_equal; try lia. f_equal; lia.
Qed.

Lemma pull_normal k lo hi pos pend R K :
  R <> K ->
  pull_digit tbl text Lz base P (dec_at base P vis k lo hi pos pend R K)
  = Pulled (dec_at base P vis k lo hi (pos + pend + 1) 0 (R - 1) K).
Proof.
  intros HRK. pose proof D_eq. pose proof m_pos.
  rewrite (pull_read _ (pos + pend + Dn)); simpl; [|lia|f_equal; lia].
  destruct (Z.eqb_spec R K) as [E|_]; [lia|]. unfold dec_at.
  rewrite rem_nonneg by (try apply window_nonneg; auto; lia).
  rewrite <- (window_settle vis Hv pos pend).
  f_equal. f_equal; try lia. f_equal; lia.
Qed.

Lemma run_keep c f k lo hi pos pend :
  run tbl text Lz parity base P (c + f) (dec_at base P vis k lo hi pos pend (Z.of_nat c) (Z.of_nat c))
  = run tbl text Lz parity base P f (dec_at base P vis k lo hi pos (pend + c) 0 0).
Proof.
  revert pend; induction c as [|c IH]; intros pend.
  - rewrite Nat.add_0_r. reflexivity.
  - simpl (S c + f)%nat. cbn [run]. unfold dec_at at 1; simpl d_requestedDigits.
    destruct (Z.ltb_spec 0 (Z.of_nat (S c))) as [_|]; [|lia].
    rewrite pull_keep. replace (Z.of_nat (S c) - 1) with (Z.of_nat c) by lia.
    rewrite IH. f_equal. f_equal. lia.
Qed.

(** The digits requested after [a] settle and [c] defer rounds. *)
Lemma run_pulls a c f k lo hi pos pend :
  run tbl text Lz parity base P (a + c + f)
    (dec_at base P vis k lo hi pos pend (Z.of_nat (a + c)) (Z.of_nat c))
  = run tbl text Lz parity base P f
      (dec_at base P vis k lo hi (fst (ops a c pos pend)) (snd (ops a c pos pend)) 0 0).
Proof.
  revert pos pend; induction a as [|a IH]; intros pos pend.
  - simpl. apply run_keep.
  - simpl (S a + c + f)%nat. cbn [run]. unfold dec_at at 1; simpl d_requestedDigits.
    destruct (Z.ltb_spec 0 (Z.of_nat (S a + c))) as [_|]; [|lia].
    rewrite pull_normal by lia. replace (Z.of_nat (S a + c) - 1) with (Z.of_nat (a + c)) by lia.
    rewrite IH. destruct a; simpl; f_equal; f_equal; lia.
Qed.

Lemma run_init_from n j f :
  (j + n = Dn)%nat ->
  run tbl text Lz parity base P (n + f)
    (mkDec 0 0 (m * base - 1) (Z.of_nat j) (digits_value base j vis) (D - Z.of_nat j) 0
       (Lz + D - 2 <? Z.of_nat j))
  = run tbl text Lz parity base P f (dec_at base P vis 0 0 (m * base - 1) 0 0 0 0).
Proof.
  pose proof D_eq. revert j; induction n as [|n IH]; intros j Hj.
  - simpl. unfold dec_at. rewrite (window_full vis 0). simpl (drop 0 vis).
    replace j with Dn by lia. do 2 f_equal; try lia. f_equal. lia.
  - simpl (S n + f)%nat. cbn [run]. simpl d_requestedDigits.
    destruct (Z.ltb_spec 0 (D - Z.of_nat j)) as [_|]; [|lia].
    rewrite (pull_read _ j) by reflexivity. simpl.
    destruct (Z.eqb_spec (D - Z.of_nat j) 0) as [|_]; [lia|].
    pose proof m_pos.
    rewrite rem_nonneg by (try apply (digits_value_bounds j vis Hv); lia).
    rewrite (window_first vis Hv j) by lia.
    rewrite <- (IH (S j)) by lia. f_equal; f_equal; try lia. f_equal; lia.
Qed.

Lemma run_init f :
  run tbl text Lz parity base P (Dn + f) (dec_init base P)
  = run tbl text Lz parity base P f (dec_at base P vis 0 0 (m * base - 1) 0 0 0 0).
Proof.
  pose proof D_eq. pose proof Dn_large. rewrite <- (run_init_from Dn 0) by lia.
  unfold dec_init. simpl digits_value. do 2 f_equal; try lia.
  symmetry. apply Z.ltb_ge. lia.
Qed.

Lemma dec_byte X b k f :
  enc_ok base P X -> byte_ok b ->
  exists n,
    run tbl text Lz parity base P (n + f)
      (after_byte base P (dec_at base P vis k (e_lo X) (e_hi X) (e_pos X) (e_pend X) 0 0) b)
    = run tbl text Lz parity base P f
        (dec_at base P vis (k + 1) (e_lo (encode_byte base P X b)) (e_hi (encode_byte base P X b))
           (e_pos (encode_byte base P X b)) (e_pend (encode_byte base P X b)) 0 0).
Proof.
  intros [Hs [[Hd0 _] _]] Hb'.
  destruct (narrow_shift_start _ _ _ Hs Hb') as [N1 _].
  unfold after_byte, encode_byte. cbn [d_lo d_hi dec_at].
  destruct (narrow (e_lo X) (e_hi X) b) as [lo' hi'] eqn:En. simpl in N1.
  set (X0 := mkEnc (e_bytesEncoded X) lo' hi' (e_digitsToAdd X) (e_digitsToAddHiMsd X) (e_out X)).
  match goal with |- context [request_loop base P en ?d] =>
    destruct (emit_request en X0 d N1 Hd0 eq_refl eq_refl) as [a [c [E1 [E2 [_ E4]]]]] end.
  rewrite E4. exists (a + c)%nat.
  unfold e_pos, e_pend in E1, E2 |- *. simpl in E1, E2 |- *.
  rewrite E1, E2. rewrite <- run_pulls. reflexivity.
Qed.

Lemma run_more f st l :
  run tbl text Lz parity base P f st = (l, Returned) ->
  forall g, run tbl text Lz parity base P (f + g) st = (l, Returned).
Proof.
  revert st l; induction f as [|f IH]; intros st l E g; simpl in E |- *; [discriminate|].
  destruct (0 <? d_requestedDigits st).
  - destruct (pull_digit tbl text Lz base P st); [apply IH; exact E|apply IH; exact E|discriminate].
  - destruct (d_isLastDigit st); [exact E|].
    destruct (run tbl text Lz parity base P f (after_byte base P st (decoded_byte st))) as [ys r] eqn:R.
    injection E as <- ->. rewrite (IH _ _ R g). reflexivity.
Qed.

Lemma encode_byte_bytes X b :
  e_bytesEncoded (encode_byte base P X b) = e_bytesEncoded X + 1.
Proof.
  unfold encode_byte. destruct (narrow (e_lo X) (e_hi X) b) as [lo' hi']. simpl.
  match goal with |- context [emit_loop base P ?k ?x] =>
    destruct (emit_loop_shift k x) as [_ [_ E]] end.
  rewrite E. reflexivity.
Qed.

Lemma run_at f k lo hi pos pend :
  run tbl text Lz parity base P (S f) (dec_at base P vis k lo hi pos pend 0 0)
  = if Lz + D - 2 <? Z.of_nat (pos + pend) + D then
      ((if negb (Z.rem k 2 =? parity)
        then [decoded_byte (dec_at base P vis k lo hi pos pend 0 0)] else []), Returned)
    else
      let '(ys, r) := run tbl text Lz parity base P f
                        (after_byte base P (dec_at base P vis k lo hi pos pend 0 0)
                           (decoded_byte (dec_at base P vis k lo hi pos pend 0 0))) in
      (decoded_byte (dec_at base P vis k lo hi pos pend 0 0) :: ys, r).
Proof. reflexivity. Qed.

(** From the state that mirrors [X], [decode] yields the bytes [X] still
    has to encode, and returns. *)
Lemma dec_run bs X :
  enc_ok base P X -> Forall byte_ok bs -> 0 <= e_bytesEncoded X ->
  good base P vis (fold_left (encode_byte base P) bs X) ->
  length vis = S (enc_count (fold_left (encode_byte base P) bs X)) ->
  parity = Z.rem (e_bytesEncoded X + Z.of_nat (length bs)) 2 ->
  exists f, run tbl text Lz parity base P f
    (dec_at base P vis (e_bytesEncoded X) (e_lo X) (e_hi X) (e_pos X) (e_pend X) 0 0)
    = (bs, Returned).
Proof.
  revert X; induction bs as [|b bs IH]; intros X Hx Hbs Hk G HL Hpar.
  - exists 1%nat. simpl in HL. rewrite run_at.
    assert (F : (Z.of_nat (length vis) + maxDigitsToDecode P - 2
                 <? Z.of_nat (e_pos X + e_pend X) + maxDigitsToDecode P) = true).
    { apply Z.ltb_lt. rewrite HL. unfold enc_count. lia. }
    rewrite F. simpl in Hpar. rewrite Z.add_0_r in Hpar. rewrite Hpar, Z.eqb_refl. reflexivity.
  - inversion Hbs as [|? ? Hb1 Hr]. simpl in G, HL.
    set (Y := encode_byte base P X b) in *.
    pose proof (encode_byte_enc_ok X b Hx Hb1) as Hy.
    destruct (fold_count bs Y Hy Hr) as [_ Cy].
    destruct (encode_byte_count X b Hx Hb1) as [Cx _]. fold Y in Cx.
    pose proof (good_fold_back vis bs Y Hv Hy Hr G) as GY.
    destruct (good_byte_back vis X b Hv Hx Hb1 GY) as [_ Wb].
    assert (Hdec : decoded_byte (dec_at base P vis (e_bytesEncoded X) (e_lo X) (e_hi X)
                                   (e_pos X) (e_pend X) 0 0) = b).
    { unfold decoded_byte, dec_at; simpl.
      apply decoded_in_narrow; [exact Hb1| |exact Wb].
      destruct Hx as [[[_ [I2 _]] _] _]. lia. }
    assert (HY : e_bytesEncoded Y = e_bytesEncoded X + 1) by apply encode_byte_bytes.
    destruct (Nat.eq_dec (enc_count X) (enc_count (fold_left (encode_byte base P) bs Y)))
      as [Eq|Ne].
    + destruct bs as [|b2 bs].
      * exists 1%nat. rewrite run_at, Hdec.
        assert (F : (Z.of_nat (length vis) + maxDigitsToDecode P - 2
                     <? Z.of_nat (e_pos X + e_pend X) + maxDigitsToDecode P) = true).
        { apply Z.ltb_lt. rewrite HL. unfold enc_count in *. cbn [fold_left] in *. lia. }
        rewrite F, Hpar. simpl length.
        rewrite !rem_nonneg by lia.
        set (nb := e_bytesEncoded X) in *.
        destruct (Z.eqb_spec (nb mod 2) ((nb + Z.of_nat 1) mod 2)) as [E|_]; [exfalso|reflexivity].
        pose proof (Z.div_mod nb 2 ltac:(lia)). pose proof (Z.div_mod (nb + Z.of_nat 1) 2 ltac:(lia)).
        pose proof (Z.mod_pos_bound nb 2 ltac:(lia)). lia.
      * exfalso. inversion Hr as [|? ? Hb2 Hr2].
        pose proof (two_bytes_count X b b2 Hx Hb1 Hb2) as T. fold Y in T.
        destruct (fold_count bs (encode_byte base P Y b2) (encode_byte_enc_ok Y b2 Hy Hb2) Hr2)
          as [_ C2]. simpl in Eq. lia.
    + destruct (IH Y Hy Hr ltac:(lia) G HL ltac:(rewrite Hpar, HY; f_equal; simpl; lia))
        as [f Hf].
      destruct (dec_byte X b (e_bytesEncoded X) f Hx Hb1) as [n Hn].
      exists (S (n + f)). rewrite run_at, Hdec.
      assert (F : (Z.of_nat (length vis) + maxDigitsToDecode P - 2
                   <? Z.of_nat (e_pos X + e_pend X) + maxDigitsToDecode P) = false).
      { apply Z.ltb_ge. rewrite HL. unfold enc_count in *. lia. }
      rewrite F.
      rewrite Hn. fold Y. rewrite <- HY, Hf. reflexivity.
Qed.
End Reads.

Lemma encode_indices_vis bytes :
  Forall byte_ok bytes ->
  encode_indices base P bytes
  = vis_of base P (encode_loop base P bytes)
    ++ [Z.rem (Z.of_nat (length bytes)) 2].
Proof.
  intros Hbs. destruct (fold_count bytes _ init_enc_ok Hbs) as [[_ [[Hd _] _]] _].
  destruct (encode_loop_ok bytes Hbs) as [_ [_ Hn]].
  unfold encode_loop in Hn. unfold encode_indices, encode_finish, vis_of, encode_loop.
  rewrite Hn. rewrite <- !app_assoc. f_equal. simpl. f_equal.
  destruct (Z.ltb_spec 0 (e_digitsToAdd (fold_left (encode_byte base P) bytes (enc_init base P))));
    [reflexivity|].
  replace (e_digitsToAdd (fold_left (encode_byte base P) bytes (enc_init base P))) with 0 by lia.
  reflexivity.
Qed.

Lemma vis_digits bytes :
  Forall byte_ok bytes -> digits_in base (vis_of base P (encode_loop base P bytes)).
Proof.
  intros Hbs j. pose proof (encode_indices_ok bytes Hbs) as H.
  rewrite encode_indices_vis in H by exact Hbs.
  apply Forall_app in H. destruct H as [H _].
  destruct (Nat.lt_ge_cases j (length (vis_of base P (encode_loop base P bytes)))) as [Hj|Hj].
  - rewrite Forall_forall in H. apply H. apply list_elem_of_In, nth_In. exact Hj.
  - rewrite nth_overflow by exact Hj. lia.
Qed.

(** [decode] run on the digits [encode] produced, read through [tbl]. *)
Lemma round_trip_run bytes tbl text :
  Forall byte_ok bytes ->
  (forall j, (j < length (vis_of base P (encode_loop base P bytes)))%nat ->
     tbl !! nth j text 0 = Some (nth j (vis_of base P (encode_loop base P bytes)) 0)) ->
  exists f0, forall f, (f0 <= f)%nat ->
    run tbl text (Z.of_nat (length (vis_of base P (encode_loop base P bytes))))
      (Z.rem (Z.of_nat (length bytes)) 2) base P f (dec_init base P)
    = (bytes, Returned).
Proof.
  intros Hbs Ht.
  set (SL := encode_loop base P bytes) in *. set (vis := vis_of base P SL) in *.
  pose proof (vis_digits bytes Hbs) as Hv. fold SL vis in Hv.
  destruct (fold_count bytes _ init_enc_ok Hbs) as [HSL _]. fold (encode_loop base P bytes) SL in HSL.
  destruct (dec_run vis text tbl (Z.rem (Z.of_nat (length bytes)) 2) Hv Ht bytes (enc_init base P)
              init_enc_ok Hbs ltac:(simpl; lia) (good_final SL HSL))
    as [f Hf].
  - unfold vis, SL, encode_loop, vis_of, enc_count, e_pos, e_pend. rewrite !length_app, repeat_length. simpl. lia.
  - simpl. reflexivity.
  - exists (Dn + f)%nat. intros g Hg. replace g with (Dn + f + (g - (Dn + f)))%nat by lia.
    rewrite <- Nat.add_assoc, run_init by assumption. apply run_more. exact Hf.
Qed.

(** *** How many symbols [encode] writes, and what it never takes back *)

Lemma emit_loop_count_le k X :
  (enc_count (emit_loop base P k X) <= enc_count X + k)%nat.
Proof.
  revert X; induction k as [|k IH]; intros X; simpl; [lia|].
  destruct (shift_step base m s (e_lo X) (e_hi X)) as [lo' hi' h|h lo' hi'|].
  - match goal with |- (enc_count (emit_loop _ _ _ ?Y) <= _)%nat =>
      specialize (IH Y); assert (Hc : (enc_count Y <= S (enc_count X))%nat) end.
    { unfold enc_count, e_pos, e_pend; simpl. lia. }
    lia.
  - match goal with |- (enc_count (emit_loop _ _ _ ?Y) <= _)%nat =>
      specialize (IH Y); assert (Hc : enc_count Y = S (enc_count X)) end.
    { unfold enc_count, e_pos, e_pend; simpl. rewrite !length_app. simpl.
      destruct (Z.ltb_spec 0 (e_digitsToAdd X)).
      - rewrite repeat_length. lia.
      - simpl. lia. }
    lia.
  - lia.
Qed.

Lemma encode_byte_count_le X b :
  (enc_count (encode_byte base P X b) <= enc_count X + Z.to_nat (maxDigitsToEmit P))%nat.
Proof.
  unfold encode_byte. destruct (narrow (e_lo X) (e_hi X) b) as [lo' hi'].
  match goal with |- context [emit_loop base P ?k ?x] =>
    pose proof (emit_loop_count_le k x) as H end.
  unfold enc_count, e_pos, e_pend in H |- *. simpl in H |- *. exact H.
Qed.

Lemma fold_count_le bs X :
  (enc_count (fold_left (encode_byte base P) bs X)
   <= enc_count X + Z.to_nat (maxDigitsToEmit P) * length bs)%nat.
Proof.
  revert X; induction bs as [|b bs IH]; intros X; simpl; [lia|].
  specialize (IH (encode_byte base P X b)). pose proof (encode_byte_count_le X b). lia.
Qed.

Lemma fold_count_ge n : forall bs X,
  length bs = n -> enc_ok base P X -> Forall byte_ok bs ->
  (enc_count X + length bs / 2 <= enc_count (fold_left (encode_byte base P) bs X))%nat.
Proof.
  induction n as [n IH] using (well_founded_induction lt_wf).
  intros bs X Hn Hx Hbs. destruct bs as [|b1 [|b2 bs]].
  - simpl. lia.
  - destruct (fold_count [b1] X Hx Hbs) as [_ C]. simpl in C |- *. lia.
  - inversion Hbs as [|? ? H1 Hr]. inversion Hr as [|? ? H2 Hr2].
    pose proof (two_bytes_count X b1 b2 Hx H1 H2) as T.
    set (Y := encode_byte base P (encode_byte base P X b1) b2) in *.
    assert (Hy : enc_ok base P Y).
    { apply encode_byte_enc_ok; [apply encode_byte_enc_ok|]; assumption. }
    specialize (IH (length bs) ltac:(simpl in Hn; lia) bs Y eq_refl Hy Hr2).
    cbn [fold_left]. fold Y.
    replace (length (b1 :: b2 :: bs) / 2)%nat with (S (length bs / 2)).
    + lia.
    + cbn [length]. replace (S (S (length bs))) with (1 * 2 + length bs)%nat by lia.
      rewrite Nat.div_add_l by lia. lia.
Qed.

Lemma emit_loop_prefix k X : exists d, e_out (emit_loop base P k X) = e_out X ++ d.
Proof.
  revert X; induction k as [|k IH]; intros X; simpl.
  - exists []. rewrite app_nil_r. reflexivity.
  - destruct (shift_step base m s (e_lo X) (e_hi X)) as [lo' hi' h|h lo' hi'|].
    + match goal with |- exists d, e_out (emit_loop _ _ _ ?Y) = _ =>
        destruct (IH Y) as [d E] end.
      exists d. exact E.
    + match goal with |- exists d, e_out (emit_loop _ _ _ ?Y) = _ =>
        destruct (IH Y) as [d E] end.
      rewrite E. simpl. eexists. rewrite <- app_assoc. reflexivity.
    + exists []. rewrite app_nil_r. reflexivity.
Qed.

Lemma fold_prefix bs X :
  exists d, e_out (fold_left (encode_byte base P) bs X) = e_out X ++ d.
Proof.
  revert X; induction bs as [|b bs IH]; intros X; simpl.
  - exists []. rewrite app_nil_r. reflexivity.
  - destruct (IH (encode_byte base P X b)) as [d1 E1]. rewrite E1.
    unfold encode_byte. destruct (narrow (e_lo X) (e_hi X) b) as [lo' hi']. simpl.
    match goal with |- context [emit_loop base P ?k ?x] =>
      destruct (emit_loop_prefix k x) as [d0 E0] end.
    rewrite E0. simpl. exists (d0 ++ d1). rewrite <- app_assoc. reflexivity.
Qed.
End Arith.

Lemma lookup_all_map tbl idx :
  Forall (idx_ok (Z.of_nat (length tbl))) idx ->
  lookup_all tbl idx = Ok (map (fun k => nth (Z.to_nat k) tbl 0) idx).
Proof.
  induction idx as [|k r IH]; intros H; simpl; [reflexivity|].
  inversion H as [|? ? Hk Hr]; subst. unfold idx_ok in Hk.
  destruct (Z.ltb_spec k 0) as [Hn|_]; [lia|].
  rewrite (nth_error_nth' tbl 0) by lia. rewrite IH by exact Hr. reflexivity.
Qed.

Lemma Encoder_new_ok alphabet enc :
  Encoder_new alphabet = Ok enc ->
  enc = mkEncoder alphabet /\ 2 <= Z.of_nat (length alphabet) <= 256.
Proof.
  unfold Encoder_new, check_alphabet, MIN_ALPHABET_SIZE, MAX_ALPHABET_SIZE.
  destruct (Z.ltb_spec (Z.of_nat (length alphabet)) 2); [discriminate|].
  destruct (Z.ltb_spec 256 (Z.of_nat (length alphabet))); [discriminate|].
  intros E; injection E as <-. split; [reflexivity|lia].
Qed.

Lemma first_index_from_nth l v k :
  (v < length l)%nat -> (forall u, (u < v)%nat -> nth u l 0 <> nth v l 0) ->
  first_index_from l (nth v l 0) k = Some (k + Z.of_nat v).
Proof.
  revert v k; induction l as [|x r IH]; intros v k Hv Hu; simpl in Hv; [lia|].
  destruct v as [|v]; simpl.
  - rewrite Z.eqb_refl. f_equal. lia.
  - destruct (Z.eqb_spec x (nth v r 0)) as [E|_].
    + exfalso. apply (Hu O ltac:(lia)). exact E.
    + rewrite IH by (try lia; intros u Hu'; exact (Hu (S u) ltac:(lia))). f_equal. lia.
Qed.

(** With distinct symbols, the decoding table inverts the alphabet. *)
Lemma decodingTable_nth alphabet v :
  NoDup alphabet -> (v < length alphabet)%nat ->
  build_decodingTable alphabet !! nth v alphabet 0 = Some (Z.of_nat v).
Proof.
  intros Hn Hv. rewrite build_decodingTable_lookup. unfold first_index.
  rewrite first_index_from_nth by
    (try exact Hv; intros u Hu E; apply (proj1 (NoDup_nth alphabet 0) (proj1 (NoDup_ListNoDup _) Hn) u v) in E; lia).
  reflexivity.
Qed.

Lemma fill_table_size alphabet i t :
  NoDup alphabet -> (i <= length alphabet)%nat ->
  (forall j, (j < i)%nat -> t !! nth j alphabet 0 = None) ->
  size (fill_table alphabet i t) = (size t + i)%nat.
Proof.
  intros Hn. revert t; induction i as [|i IH]; intros t Hi Ht; simpl; [lia|].
  rewrite IH.
  - rewrite map_size_insert_None by (apply Ht; lia). lia.
  - lia.
  - intros j Hj. rewrite lookup_insert_ne; [apply Ht; lia|].
    intros E. apply (proj1 (NoDup_nth alphabet 0) (proj1 (NoDup_ListNoDup _) Hn) i j) in E; lia.
Qed.

Lemma decodingTable_size alphabet :
  NoDup alphabet -> size (build_decodingTable alphabet) = length alphabet.
Proof.
  intros Hn. unfold build_decodingTable.
  rewrite fill_table_size; [rewrite map_size_empty; lia|exact Hn|lia|].
  intros j _. apply lookup_empty.
Qed.

(* ------------------------------------------------------------------ *)
(** ** The interval state and the encoder's output *)

(** C8: for every base in [2, 256] the interval state keeps
    [0 <= lo <= hi <= msdDivisor * base - 1]: both [encode] and [decode]
    start from such an interval (spanning more than [secondMsdDivisor]
    values); narrowing such an interval with a byte in [0, 255] gives one;
    every settle or defer shift maps one to one; and one whole per-byte
    iteration of the encoder, and of the decoder (for a byte in [0, 255]),
    leads again to such an interval at the start of the next iteration, so
    every [encode] run keeps it at the start of each iteration. *)
Theorem interval_invariant : forall base P,
  2 <= base <= 256 -> calculateParams base = Some P ->
  (start_ok base P (e_lo (enc_init base P)) (e_hi (enc_init base P))
   /\ start_ok base P (d_lo (dec_init base P)) (d_hi (dec_init base P)))
  /\ (forall lo hi b, start_ok base P lo hi -> byte_ok b ->
        interval_ok base P (fst (narrow lo hi b)) (snd (narrow lo hi b)))
  /\ (forall lo hi, interval_ok base P lo hi ->
        match shift_step base (msdDivisor P) (secondMsdDivisor P) lo hi with
        | Defer lo' hi' _ | Settle _ lo' hi' => interval_ok base P lo' hi'
        | Stop => True
        end)
  /\ (forall st b, start_ok base P (e_lo st) (e_hi st) -> byte_ok b ->
        start_ok base P (e_lo (encode_byte base P st b)) (e_hi (encode_byte base P st b)))
  /\ (forall st b, start_ok base P (d_lo st) (d_hi st) -> byte_ok b ->
        start_ok base P (d_lo (after_byte base P st b)) (d_hi (after_byte base P st b)))
  /\ (forall bytes, Forall byte_ok bytes ->
        start_ok base P (e_lo (encode_loop base P bytes)) (e_hi (encode_loop base P bytes))).
Proof.
  intros base P Hb HP.
  destruct (calculateParams_facts base Hb) as [P' [E HF]].
  rewrite HP in E. injection E as <-.
  split; [split; apply (init_start_ok base P Hb HF)|].
  split; [intros lo hi b Hs Hb'; exact (proj1 (narrow_shift_start base P Hb HF lo hi b Hs Hb'))|].
  split.
  { intros lo hi Hi. pose proof (shift_interval base P Hb HF lo hi Hi) as C.
    destruct (shift_step base (msdDivisor P) (secondMsdDivisor P) lo hi); tauto. }
  split; [intros st b; apply (encode_byte_start base P Hb HF)|].
  split; [intros st b; apply (after_byte_ok base P Hb HF)|].
  intros bytes Hbs. exact (proj1 (encode_loop_ok base P Hb HF bytes Hbs)).
Qed.

Lemma interval_invariant_witness :
  (2 <= 85 <= 256 /\ calculateParams 85 = Some (mkParams 4437053125 52200625 3 6))
  /\ forall bytes, Forall byte_ok bytes ->
     start_ok 85 (mkParams 4437053125 52200625 3 6)
       (e_lo (encode_loop 85 (mkParams 4437053125 52200625 3 6) bytes))
       (e_hi (encode_loop 85 (mkParams 4437053125 52200625 3 6) bytes)).
Proof.
  split; [split; [lia|vm_compute; reflexivity]|].
  apply (interval_invariant 85 (mkParams 4437053125 52200625 3 6));
    [lia|vm_compute; reflexivity].
Defined.

(** C9: for every alphabet accepted by [Encoder_new] (so of size [base] in
    [2, 256]) and every sequence of bytes in [0, 255], [encode] returns
    (never throws) a text all of whose characters are symbols of the
    alphabet; every index it reads the table at lies in [0, base). *)
Theorem encode_output_in_alphabet : forall alphabet enc bytes,
  Encoder_new alphabet = Ok enc -> Forall byte_ok bytes ->
  exists out, encode enc bytes = Ok out /\ Forall (fun c => In c alphabet) out
  /\ (forall P, calculateParams (Z.of_nat (length alphabet)) = Some P ->
        Forall (idx_ok (Z.of_nat (length alphabet)))
          (encode_indices (Z.of_nat (length alphabet)) P bytes)).
Proof.
  intros alphabet enc bytes He Hbs. destruct (Encoder_new_ok _ _ He) as [-> Hb].
  destruct (calculateParams_facts _ Hb) as [P [E HF]].
  pose proof (encode_indices_ok _ P Hb HF bytes Hbs) as Hi.
  unfold encode; cbn [encodingTable]. rewrite E, (lookup_all_map _ _ Hi).
  eexists; split; [reflexivity|split].
  - apply Forall_forall. intros c Hc. apply list_elem_of_In, in_map_iff in Hc.
    destruct Hc as [k [<- Hk]]. apply list_elem_of_In in Hk.
    rewrite Forall_forall in Hi. specialize (Hi k Hk). unfold idx_ok in Hi.
    apply nth_In. lia.
  - intros P' E'. injection E' as <-. exact Hi.
Qed.

Lemma encode_output_in_alphabet_witness :
  (Encoder_new [48; 49] = Ok (mkEncoder [48; 49]) /\ Forall byte_ok [0; 255; 255])
  /\ exists out, encode (mkEncoder [48; 49]) [0; 255; 255] = Ok out
     /\ Forall (fun c => In c [48; 49]) out.
Proof.
  split; [split; [reflexivity|repeat constructor; unfold byte_ok; lia]|].
  destruct (encode_output_in_alphabet [48; 49] (mkEncoder [48; 49]) [0; 255; 255])
    as [out [A [B _]]].
  - reflexivity.
  - repeat constructor; unfold byte_ok; lia.
  - exists out. split; assumption.
Defined.

(** C7: after the per-byte loop, [encode] emits the symbol at index
    [floor(hi / msdDivisor)], then one symbol at index [0] per pending digit
    (none when no digit is pending), then one terminator symbol at index
    [length(B) mod 2]; so the last character is the symbol at index
    [length(B) mod 2]. *)
Theorem encode_tail : forall alphabet enc bytes,
  Encoder_new alphabet = Ok enc -> Forall byte_ok bytes ->
  let base := Z.of_nat (length alphabet) in
  let sym k := nth (Z.to_nat k) alphabet 0 in
  exists P, calculateParams base = Some P /\
    let st := encode_loop base P bytes in
    e_bytesEncoded st = Z.of_nat (length bytes)
    /\ encode enc bytes =
       Ok (map sym (e_out st) ++ [sym (e_hi st / msdDivisor P)]
           ++ repeat (sym 0) (Z.to_nat (e_digitsToAdd st))
           ++ [sym (Z.of_nat (length bytes) mod 2)])
    /\ exists prefix, encode enc bytes = Ok (prefix ++ [sym (Z.of_nat (length bytes) mod 2)]).
Proof.
  intros alphabet enc bytes He Hbs base sym.
  destruct (Encoder_new_ok _ _ He) as [-> Hb].
  destruct (calculateParams_facts _ Hb) as [P [E HF]].
  exists P. split; [exact E|]. intros st.
  pose proof (encode_indices_ok _ P Hb HF bytes Hbs) as Hi.
  destruct (encode_loop_ok _ P Hb HF bytes Hbs) as [_ [_ Hn]].
  assert (Henc : encode (mkEncoder alphabet) bytes =
       Ok (map sym (e_out st) ++ [sym (e_hi st / msdDivisor P)]
           ++ repeat (sym 0) (Z.to_nat (e_digitsToAdd st))
           ++ [sym (Z.of_nat (length bytes) mod 2)])).
  { unfold encode; cbn [encodingTable]. unfold base.
    rewrite E, (lookup_all_map _ _ Hi).
    unfold encode_indices, encode_finish.
    change (encode_loop (Z.of_nat (length alphabet)) P bytes) with st in *.
    rewrite !map_app. simpl map. rewrite Hn, rem_nonneg by lia.
    f_equal. f_equal. f_equal. f_equal.
    destruct (Z.ltb_spec 0 (e_digitsToAdd st)) as [H0|H0].
    - rewrite map_repeat. reflexivity.
    - replace (Z.to_nat (e_digitsToAdd st)) with O by lia. reflexivity. }
  split; [exact Hn|split; [exact Henc|]].
  eexists. rewrite Henc, !app_assoc. reflexivity.
Qed.

Lemma encode_tail_witness :
  (Encoder_new DEFAULT_ALPHABET = Ok (mkEncoder DEFAULT_ALPHABET)
   /\ Forall byte_ok [104; 105; 0])
  /\ exists prefix, encode (mkEncoder DEFAULT_ALPHABET) [104; 105; 0]
                    = Ok (prefix ++ [nth 1 DEFAULT_ALPHABET 0]).
Proof.
  split; [split; [reflexivity|repeat constructor; unfold byte_ok; lia]|].
  destruct (encode_tail DEFAULT_ALPHABET (mkEncoder DEFAULT_ALPHABET) [104; 105; 0])
    as [P [_ [_ [_ H]]]].
  - reflexivity.
  - repeat constructor; unfold byte_ok; lia.
  - exact H.
Defined.

(* ------------------------------------------------------------------ *)
(** ** Round trip *)

(** C1: for every alphabet of distinct code units with 2 to 256 symbols
    and every finite sequence of bytes (empty, or ending in zero bytes,
    included), the [Encoder] and [Decoder] built from the alphabet exist,
    [encode] returns a text, and [decode] run on that text yields exactly
    the bytes and returns (for every amount of fuel from some point on). *)
Theorem round_trip : forall alphabet bytes,
  NoDup alphabet -> (2 <= length alphabet <= 256)%nat -> Forall byte_ok bytes ->
  exists enc dec text fuel0,
    Encoder_new alphabet = Ok enc /\ Decoder_new alphabet = Ok dec
    /\ encode enc bytes = Ok text
    /\ forall fuel, (fuel0 <= fuel)%nat -> decode dec text fuel = (bytes, Returned).
Proof.
  intros alphabet bytes Hn Hlen Hbs.
  set (base := Z.of_nat (length alphabet)).
  assert (Hb : 2 <= base <= 256) by (unfold base; lia).
  destruct (calculateParams_facts base Hb) as [P [EP HP]].
  set (tbl := build_decodingTable alphabet).
  set (SL := encode_loop base P bytes).
  set (vis := vis_of base P SL).
  set (par := Z.rem (Z.of_nat (length bytes)) 2).
  set (sym := fun k => nth (Z.to_nat k) alphabet 0).
  set (text := map sym (vis ++ [par])).
  pose proof (vis_digits base P Hb HP bytes Hbs) as Hv. fold SL vis in Hv.
  assert (Hpar : 0 <= par < 2).
  { unfold par. rewrite rem_nonneg by lia. apply Z.mod_pos_bound. lia. }
  assert (Hsym : forall j, (j < length (vis ++ [par]))%nat ->
            tbl !! nth j text 0 = Some (nth j (vis ++ [par]) 0)).
  { intros j Hj. unfold text. rewrite (nth_indep _ 0 (sym 0)) by (rewrite length_map; exact Hj).
    rewrite map_nth. unfold sym, tbl.
    assert (Hd : 0 <= nth j (vis ++ [par]) 0 < base).
    { destruct (Nat.lt_ge_cases j (length vis)) as [Hl|Hl].
      - rewrite app_nth1 by exact Hl. apply Hv.
      - rewrite app_nth2 by exact Hl. rewrite length_app in Hj. simpl in Hj.
        replace (j - length vis)%nat with O by lia. simpl. lia. }
    rewrite decodingTable_nth by (try exact Hn; unfold base in Hd; lia).
    f_equal. lia. }
  exists (mkEncoder alphabet), (mkDecoder tbl), text.
  destruct (round_trip_run base P Hb HP bytes tbl text Hbs) as [f0 Hf0].
  { intros j Hj. fold SL vis in Hj |- *. rewrite Hsym by (rewrite length_app; simpl; lia).
    rewrite app_nth1 by exact Hj. reflexivity. }
  fold SL vis par in Hf0.
  exists f0.
  assert (Hc : check_alphabet alphabet = None).
  { unfold check_alphabet, MIN_ALPHABET_SIZE, MAX_ALPHABET_SIZE.
    destruct (Z.ltb_spec (Z.of_nat (length alphabet)) 2); [lia|].
    destruct (Z.ltb_spec 256 (Z.of_nat (length alphabet))); [lia|]. reflexivity. }
  split; [unfold Encoder_new; rewrite Hc; reflexivity|].
  split; [unfold Decoder_new; rewrite Hc; reflexivity|].
  split.
  - unfold encode; cbn [encodingTable]. fold base. rewrite EP.
    rewrite (lookup_all_map _ _ (encode_indices_ok base P Hb HP bytes Hbs)).
    rewrite (encode_indices_vis base P Hb HP bytes Hbs). reflexivity.
  - intros fuel Hf. unfold decode, decode_with; cbn [decodingTable].
    assert (HL : Z.of_nat (length text) - 1 = Z.of_nat (length vis)).
    { unfold text. rewrite length_map, length_app. simpl. lia. }
    rewrite HL.
    destruct (Z.ltb_spec (Z.of_nat (length vis)) 0) as [|_]; [lia|].
    unfold charCodeAt. rewrite Nat2Z.id.
    rewrite Hsym by (rewrite length_app; simpl; lia).
    rewrite app_nth2 by lia. rewrite Nat.sub_diag. simpl nth.
    destruct (Z.ltb_spec 1 par) as [|_]; [lia|].
    unfold tbl. rewrite decodingTable_size by exact Hn. fold tbl base. rewrite EP.
    apply Hf0. exact Hf.
Qed.

Lemma round_trip_witness :
  (NoDup [48; 49] /\ (2 <= length [48; 49] <= 256)%nat /\ Forall byte_ok [0; 255; 0])
  /\ exists enc dec text fuel0,
    Encoder_new [48; 49] = Ok enc /\ Decoder_new [48; 49] = Ok dec
    /\ encode enc [0; 255; 0] = Ok text
    /\ forall fuel, (fuel0 <= fuel)%nat -> decode dec text fuel = ([0; 255; 0], Returned).
Proof.
  assert (H1 : NoDup [48; 49]).
  { apply NoDup_ListNoDup. constructor; [simpl; lia|constructor; [simpl; tauto|constructor]]. }
  assert (H2 : (2 <= length [48; 49] <= 256)%nat) by (simpl; lia).
  assert (H3 : Forall byte_ok [0; 255; 0]) by (repeat constructor; unfold byte_ok; lia).
  split; [split; [exact H1|split; [exact H2|exact H3]]|].
  exact (round_trip [48; 49] [0; 255; 0] H1 H2 H3).
Defined.

(* ------------------------------------------------------------------ *)
(** ** Further properties of the module *)

Lemma Decoder_new_ok alphabet dec :
  Decoder_new alphabet = Ok dec ->
  dec = mkDecoder (build_decodingTable alphabet) /\ 2 <= Z.of_nat (length alphabet) <= 256.
Proof.
  unfold Decoder_new, check_alphabet, MIN_ALPHABET_SIZE, MAX_ALPHABET_SIZE.
  destruct (Z.ltb_spec (Z.of_nat (length alphabet)) 2); [discriminate|].
  destruct (Z.ltb_spec 256 (Z.of_nat (length alphabet))); [discriminate|].
  intros E; injection E as <-. split; [reflexivity|lia].
Qed.

Lemma length_encode_indices base P bytes :
  length (encode_indices base P bytes) = (enc_count (encode_loop base P bytes) + 2)%nat.
Proof.
  unfold encode_indices, encode_finish, enc_count, e_pos, e_pend.
  rewrite !length_app. simpl.
  destruct (Z.ltb_spec 0 (e_digitsToAdd (encode_loop base P bytes))).
  - rewrite repeat_length. lia.
  - simpl. lia.
Qed.

(** The text [encode] writes for distinct symbols, and [decode] run on it
    through the table the [Decoder] builds. *)
Lemma encoded_text_decodes alphabet bytes :
  NoDup alphabet -> (2 <= length alphabet <= 256)%nat -> Forall byte_ok bytes ->
  exists text f0, encode (mkEncoder alphabet) bytes = Ok text
    /\ forall f, (f0 <= f)%nat -> decode_with (build_decodingTable alphabet) text f = (bytes, Returned).
Proof.
  intros Hn Hlen Hbs.
  set (base := Z.of_nat (length alphabet)).
  assert (Hb : 2 <= base <= 256) by (unfold base; lia).
  destruct (calculateParams_facts base Hb) as [P [EP HP]].
  set (tbl := build_decodingTable alphabet).
  set (SL := encode_loop base P bytes).
  set (vis := vis_of base P SL).
  set (par := Z.rem (Z.of_nat (length bytes)) 2).
  set (sym := fun k => nth (Z.to_nat k) alphabet 0).
  set (text := map sym (vis ++ [par])).
  pose proof (vis_digits base P Hb HP bytes Hbs) as Hv. fold SL vis in Hv.
  assert (Hpar : 0 <= par < 2).
  { unfold par. rewrite rem_nonneg by lia. apply Z.mod_pos_bound. lia. }
  assert (Hsym : forall j, (j < length (vis ++ [par]))%nat ->
            tbl !! nth j text 0 = Some (nth j (vis ++ [par]) 0)).
  { intros j Hj. unfold text. rewrite (nth_indep _ 0 (sym 0)) by (rewrite length_map; exact Hj).
    rewrite map_nth. unfold sym, tbl.
    assert (Hd : 0 <= nth j (vis ++ [par]) 0 < base).
    { destruct (Nat.lt_ge_cases j (length vis)) as [Hl|Hl].
      - rewrite app_nth1 by exact Hl. apply Hv.
      - rewrite app_nth2 by exact Hl. rewrite length_app in Hj. simpl in Hj.
        replace (j - length vis)%nat with O by lia. simpl. lia. }
    rewrite decodingTable_nth by (try exact Hn; unfold base in Hd; lia).
    f_equal. lia. }
  exists text.
  destruct (round_trip_run base P Hb HP bytes tbl text Hbs) as [f0 Hf0].
  { intros j Hj. fold SL vis in Hj |- *. rewrite Hsym by (rewrite length_app; simpl; lia).
    rewrite app_nth1 by exact Hj. reflexivity. }
  fold SL vis par in Hf0.
  exists f0. split.
  - unfold encode; cbn [encodingTable]. fold base. rewrite EP.
    rewrite (lookup_all_map _ _ (encode_indices_ok base P Hb HP bytes Hbs)).
    rewrite (encode_indices_vis base P Hb HP bytes Hbs). reflexivity.
  - intros fuel Hf. unfold decode_with.
    assert (HL : Z.of_nat (length text) - 1 = Z.of_nat (length vis)).
    { unfold text. rewrite length_map, length_app. simpl. lia. }
    rewrite HL.
    destruct (Z.ltb_spec (Z.of_nat (length vis)) 0) as [|_]; [lia|].
    unfold charCodeAt. rewrite Nat2Z.id.
    fold tbl. rewrite Hsym by (rewrite length_app; simpl; lia).
    rewrite app_nth2 by lia. rewrite Nat.sub_diag. simpl nth.
    destruct (Z.ltb_spec 1 par) as [|_]; [lia|].
    unfold tbl. rewrite decodingTable_size by exact Hn. fold tbl base. rewrite EP.
    apply Hf0. exact Hf.
Qed.

(** With more fuel the generator either ends as before, or it was still
    running and the bytes it had yielded are followed by more. *)
Lemma run_prefix tbl text endIndex par base P f g st :
  let '(ys, r) := run tbl text endIndex par base P f st in
  (r = Running /\ exists zs, fst (run tbl text endIndex par base P (f + g) st) = ys ++ zs)
  \/ run tbl text endIndex par base P (f + g) st = (ys, r).
Proof.
  revert st; induction f as [|f IH]; intros st.
  - left. split; [reflexivity|]. eexists. reflexivity.
  - cbn [run Nat.add].
    destruct (0 <? d_requestedDigits st).
    + destruct (pull_digit tbl text endIndex base P st) as [st'| |].
      * exact (IH st').
      * exact (IH st).
      * right. reflexivity.
    + destruct (d_isLastDigit st); [right; reflexivity|].
      specialize (IH (after_byte base P st (decoded_byte st))).
      destruct (run tbl text endIndex par base P f (after_byte base P st (decoded_byte st)))
        as [ys r].
      destruct IH as [[-> [zs E]]|E].
      * left. split; [reflexivity|]. exists zs.
        destruct (run tbl text endIndex par base P (f + g) (after_byte base P st (decoded_byte st)))
          as [ys' r']. simpl in E |- *. rewrite E. reflexivity.
      * right. rewrite E. reflexivity.
Qed.

Lemma decode_with_prefix tbl text f g :
  let '(ys, r) := decode_with tbl text f in
  (r = Running /\ exists zs, fst (decode_with tbl text (f + g)) = ys ++ zs)
  \/ decode_with tbl text (f + g) = (ys, r).
Proof.
  unfold decode_with.
  destruct (Z.of_nat (length text) - 1 <? 0); [right; reflexivity|].
  destruct (tbl !! charCodeAt text (Z.of_nat (length text) - 1)) as [par|]; [|right; reflexivity].
  destruct (1 <? par); [right; reflexivity|].
  destruct (calculateParams (Z.of_nat (size tbl))) as [P|]; [|right; reflexivity].
  apply run_prefix.
Qed.

Lemma fill_table_size_le alphabet i t :
  (size (fill_table alphabet i t) <= size t + i)%nat.
Proof.
  revert t; induction i as [|i IH]; intros t; simpl; [lia|].
  specialize (IH (<[nth i alphabet 0 := Z.of_nat i]> t)).
  rewrite map_size_insert in IH. destruct (t !! nth i alphabet 0); simpl in IH; lia.
Qed.

(** When no insertion finds its key already there, the keys were new and
    distinct. *)
Lemma fill_table_size_eq alphabet i t :
  size (fill_table alphabet i t) = (size t + i)%nat ->
  (forall j, (j < i)%nat -> t !! nth j alphabet 0 = None)
  /\ (forall j j', (j < i)%nat -> (j' < i)%nat -> nth j alphabet 0 = nth j' alphabet 0 -> j = j').
Proof.
  revert t; induction i as [|i IH]; intros t E; [split; intros; lia|].
  simpl in E. set (t' := <[nth i alphabet 0 := Z.of_nat i]> t) in *.
  pose proof (fill_table_size_le alphabet i t') as L.
  pose proof (map_size_insert (nth i alphabet 0) (Z.of_nat i) t) as S1. fold t' in S1.
  assert (Hi : t !! nth i alphabet 0 = None).
  { destruct (t !! nth i alphabet 0); [simpl in S1; lia|reflexivity]. }
  rewrite Hi in S1. simpl in S1.
  destruct (IH t' ltac:(lia)) as [N U].
  assert (Hne : forall j, (j < i)%nat -> nth j alphabet 0 <> nth i alphabet 0).
  { intros j Hj Ej. specialize (N j Hj). unfold t' in N. rewrite Ej, lookup_insert_eq in N.
    discriminate. }
  split.
  - intros j Hj. destruct (Nat.eq_dec j i) as [->|Hji]; [exact Hi|].
    specialize (N j ltac:(lia)). unfold t' in N.
    rewrite lookup_insert_ne in N by (apply not_eq_sym, Hne; lia). exact N.
  - intros j j' Hj Hj' Ejj.
    destruct (Nat.eq_dec j i) as [->|Hji]; destruct (Nat.eq_dec j' i) as [->|Hj'i]; try reflexivity.
    + exfalso. apply (Hne j' ltac:(lia)). congruence.
    + exfalso. apply (Hne j ltac:(lia)). exact Ejj.
    + apply U; lia || exact Ejj.
Qed.

Lemma StringBuilder_add_inv sb str :
  currChunkLength sb = Z.of_nat (length (concat (currChunk sb))) ->
  Forall (fun c => (1024 <= length c)%nat) (chunks sb) ->
  StringBuilder_toString (StringBuilder_add sb str) = StringBuilder_toString sb ++ str
  /\ currChunkLength (StringBuilder_add sb str)
     = Z.of_nat (length (concat (currChunk (StringBuilder_add sb str))))
  /\ Forall (fun c => (1024 <= length c)%nat) (chunks (StringBuilder_add sb str)).
Proof.
  intros Hl Hc. unfold StringBuilder_add, StringBuilder_toString.
  destruct (Z.leb_spec 1024 (currChunkLength sb)); simpl.
  - rewrite !concat_app. simpl. rewrite !app_nil_r, <- !app_assoc.
    split; [reflexivity|split; [lia|]].
    apply Forall_app; split; [exact Hc|]. constructor; [lia|constructor].
  - rewrite !concat_app, length_app. simpl. rewrite !app_nil_r, <- !app_assoc.
    split; [reflexivity|split; [lia|exact Hc]].
Qed.

Lemma StringBuilder_fold strs sb :
  currChunkLength sb = Z.of_nat (length (concat (currChunk sb))) ->
  Forall (fun c => (1024 <= length c)%nat) (chunks sb) ->
  StringBuilder_toString (fold_left StringBuilder_add strs sb)
  = StringBuilder_toString sb ++ concat strs
  /\ Forall (fun c => (1024 <= length c)%nat) (chunks (fold_left StringBuilder_add strs sb)).
Proof.
  revert sb; induction strs as [|str strs IH]; intros sb Hl Hc; simpl.
  - rewrite app_nil_r. split; [reflexivity|exact Hc].
  - destruct (StringBuilder_add_inv sb str Hl Hc) as [E1 [E2 E3]].
    destruct (IH _ E2 E3) as [F1 F2]. rewrite F1, E1, app_assoc. split; [reflexivity|exact F2].
Qed.

Lemma params_max_all : forallb params_max_ok (map Z.of_nat (seq 2 255)) = true.
Proof. vm_compute. reflexivity. Qed.

Lemma params_max_range base : 2 <= base <= 256 -> params_max_ok base = true.
Proof.
  intros Hb. pose proof params_max_all as H. rewrite forallb_forall in H.
  apply H. apply in_map_iff. exists (Z.to_nat base). split; [lia|].
  apply in_seq. lia.
Qed.

(** X1: [StringBuilder.toString] after any sequence of [add] calls
    returns the added strings concatenated in order, however [add] split
    them into chunks; every completed chunk holds at least 1024 code
    units. *)
Theorem StringBuilder_toString_concat : forall strs,
  StringBuilder_toString (fold_left StringBuilder_add strs StringBuilder_new) = concat strs
  /\ Forall (fun c => (1024 <= length c)%nat)
       (chunks (fold_left StringBuilder_add strs StringBuilder_new)).
Proof.
  intros strs.
  destruct (StringBuilder_fold strs StringBuilder_new eq_refl (List.Forall_nil _)) as [E F].
  rewrite E. split; [reflexivity|exact F].
Qed.

(** X2: for every base from 2 to 256, [calculateParams] gives
    [msdDivisor = secondMsdDivisor * base] and
    [msdDivisor * base = base ^ maxDigitsToDecode], the largest power of
    [base] that is at most [2^40]. *)
Theorem calculateParams_window : forall base,
  2 <= base <= 256 ->
  exists P, calculateParams base = Some P
    /\ msdDivisor P = secondMsdDivisor P * base
    /\ msdDivisor P * base = base ^ maxDigitsToDecode P
    /\ msdDivisor P * base <= 2 ^ 40 < msdDivisor P * base * base.
Proof.
  intros base Hb.
  destruct (calculateParams_facts base Hb) as [P [EP HP]].
  pose proof (params_max_range base Hb) as H. unfold params_max_ok in H. rewrite EP in H.
  apply Z.ltb_lt in H.
  exists P. split; [exact EP|].
  split; [exact (pf_msd _ _ HP)|]. split; [|split; [exact (pf_range _ _ HP)|exact H]].
  pose proof (pf_decode _ _ HP). pose proof (pf_emit2 _ _ HP).
  rewrite (pf_msd_pow _ _ HP).
  replace (maxDigitsToDecode P) with (maxDigitsToDecode P - 1 + 1) at 2 by lia.
  rewrite Z.pow_add_r by lia. lia.
Qed.

Lemma calculateParams_window_witness :
  2 <= 85 <= 256
  /\ exists P, calculateParams 85 = Some P
    /\ msdDivisor P = secondMsdDivisor P * 85
    /\ msdDivisor P * 85 = 85 ^ maxDigitsToDecode P
    /\ msdDivisor P * 85 <= 2 ^ 40 < msdDivisor P * 85 * 85.
Proof. split; [lia|]. apply calculateParams_window. lia. Defined.

(** X3: [encode] of [n] bytes with a valid alphabet returns a text of at
    least [n / 2 + 2] and at most [maxDigitsToEmit * n + 2] symbols. *)
Theorem encode_length_bounds : forall alphabet enc bytes,
  Encoder_new alphabet = Ok enc -> Forall byte_ok bytes ->
  exists P text, calculateParams (Z.of_nat (length alphabet)) = Some P
    /\ encode enc bytes = Ok text
    /\ (length bytes / 2 + 2 <= length text
        <= Z.to_nat (maxDigitsToEmit P) * length bytes + 2)%nat.
Proof.
  intros alphabet enc bytes He Hbs.
  destruct (Encoder_new_ok alphabet enc He) as [-> Hb].
  set (base := Z.of_nat (length alphabet)) in *.
  destruct (calculateParams_facts base Hb) as [P [EP HP]].
  exists P. eexists. split; [exact EP|]. split.
  - unfold encode; cbn [encodingTable]. fold base. rewrite EP.
    rewrite (lookup_all_map _ _ (encode_indices_ok base P Hb HP bytes Hbs)). reflexivity.
  - rewrite length_map, length_encode_indices.
    pose proof (fold_count_le base P bytes (enc_init base P)) as U.
    pose proof (fold_count_ge base P Hb HP (length bytes) bytes (enc_init base P) eq_refl
                  (init_enc_ok base P Hb HP) Hbs) as L.
    assert (E0 : enc_count (enc_init base P) = O) by reflexivity.
    unfold encode_loop. rewrite E0 in U, L. lia.
Qed.

Lemma encode_length_bounds_witness :
  (Encoder_new [48; 49] = Ok (mkEncoder [48; 49]) /\ Forall byte_ok [0; 255; 7])
  /\ exists P text, calculateParams (Z.of_nat (length [48; 49])) = Some P
    /\ encode (mkEncoder [48; 49]) [0; 255; 7] = Ok text
    /\ (length [0%Z; 255%Z; 7%Z] / 2 + 2 <= length text
        <= Z.to_nat (maxDigitsToEmit P) * length [0%Z; 255%Z; 7%Z] + 2)%nat.
Proof.
  assert (H1 : Encoder_new [48; 49] = Ok (mkEncoder [48; 49])) by reflexivity.
  assert (H2 : Forall byte_ok [0; 255; 7]) by (repeat constructor; unfold byte_ok; lia).
  split; [split; [exact H1|exact H2]|].
  exact (encode_length_bounds [48; 49] (mkEncoder [48; 49]) [0; 255; 7] H1 H2).
Defined.

(** X4: [encode] of no bytes returns the alphabet's last symbol followed
    by its first. *)
Theorem encode_empty : forall alphabet enc,
  Encoder_new alphabet = Ok enc ->
  encode enc [] = Ok [nth (length alphabet - 1) alphabet 0; nth 0 alphabet 0].
Proof.
  intros alphabet enc He.
  destruct (Encoder_new_ok alphabet enc He) as [-> Hb].
  set (base := Z.of_nat (length alphabet)) in *.
  destruct (calculateParams_facts base Hb) as [P [EP HP]].
  unfold encode; cbn [encodingTable]. fold base. rewrite EP.
  assert (Hm : 0 < msdDivisor P).
  { rewrite (pf_msd _ _ HP). pose proof (pf_second _ _ HP). nia. }
  assert (Hd : (msdDivisor P * base - 1) / msdDivisor P = base - 1).
  { symmetry. apply (Z.div_unique_pos _ _ _ (msdDivisor P - 1)); lia. }
  assert (Hi : encode_indices base P [] = [base - 1; 0]).
  { unfold encode_indices, encode_finish, encode_loop. cbn. rewrite Hd. reflexivity. }
  rewrite Hi. rewrite lookup_all_map by (repeat constructor; unfold idx_ok; lia).
  simpl. do 2 f_equal. f_equal. unfold base. lia.
Qed.

Lemma encode_empty_witness :
  Encoder_new [48; 49; 50] = Ok (mkEncoder [48; 49; 50])
  /\ encode (mkEncoder [48; 49; 50]) []
     = Ok [nth (length [48; 49; 50] - 1) [48; 49; 50] 0; nth 0 [48; 49; 50] 0].
Proof.
  assert (H1 : Encoder_new [48; 49; 50] = Ok (mkEncoder [48; 49; 50])) by reflexivity.
  split; [exact H1|]. exact (encode_empty [48; 49; 50] _ H1).
Defined.

(** X5: appending bytes never changes the part of the text [encode] has
    already committed: [encode (bytes1 ++ bytes2)] starts with
    [encode bytes1] without its last [2 + k] symbols, where [k] is the
    number of digits the encoder still holds back ([digitsToAdd]) after
    [bytes1]. *)
Theorem encode_prefix_stable : forall alphabet enc bytes1 bytes2,
  Encoder_new alphabet = Ok enc -> Forall byte_ok (bytes1 ++ bytes2) ->
  exists P prefix rest1 rest2,
    calculateParams (Z.of_nat (length alphabet)) = Some P
    /\ encode enc bytes1 = Ok (prefix ++ rest1)
    /\ encode enc (bytes1 ++ bytes2) = Ok (prefix ++ rest2)
    /\ length rest1
       = (2 + Z.to_nat (e_digitsToAdd (encode_loop (Z.of_nat (length alphabet)) P bytes1)))%nat.
Proof.
  intros alphabet enc bytes1 bytes2 He Hbs.
  destruct (Encoder_new_ok alphabet enc He) as [-> Hb].
  set (base := Z.of_nat (length alphabet)) in *.
  destruct (calculateParams_facts base Hb) as [P [EP HP]].
  pose proof Hbs as Hbs1. apply Forall_app in Hbs1. destruct Hbs1 as [Hbs1 _].
  set (sym := fun k => nth (Z.to_nat k) alphabet 0).
  set (S1 := encode_loop base P bytes1).
  destruct (fold_prefix base P bytes2 S1) as [d Ed].
  set (tail := fun st : enc_state =>
         [e_hi st / msdDivisor P]
         ++ (if 0 <? e_digitsToAdd st then repeat 0 (Z.to_nat (e_digitsToAdd st)) else [])
         ++ [Z.rem (e_bytesEncoded st) 2]).
  set (S2 := encode_loop base P (bytes1 ++ bytes2)).
  assert (E2 : e_out S2 = e_out S1 ++ d).
  { unfold S2, encode_loop. rewrite fold_left_app. exact Ed. }
  exists P, (map sym (e_out S1)), (map sym (tail S1)), (map sym (d ++ tail S2)).
  split; [exact EP|]. split; [|split].
  - unfold encode; cbn [encodingTable]. fold base. rewrite EP.
    rewrite (lookup_all_map _ _ (encode_indices_ok base P Hb HP bytes1 Hbs1)).
    rewrite <- map_app. reflexivity.
  - unfold encode; cbn [encodingTable]. fold base. rewrite EP.
    rewrite (lookup_all_map _ _ (encode_indices_ok base P Hb HP _ Hbs)).
    rewrite <- map_app, app_assoc, <- E2. reflexivity.
  - rewrite length_map. unfold tail. rewrite !length_app. simpl. fold S1.
    destruct (Z.ltb_spec 0 (e_digitsToAdd S1)).
    + rewrite repeat_length. lia.
    + simpl. lia.
Qed.

Lemma encode_prefix_stable_witness :
  (Encoder_new [48; 49] = Ok (mkEncoder [48; 49]) /\ Forall byte_ok ([3; 200] ++ [17]))
  /\ exists P prefix rest1 rest2,
    calculateParams (Z.of_nat (length [48; 49])) = Some P
    /\ encode (mkEncoder [48; 49]) [3; 200] = Ok (prefix ++ rest1)
    /\ encode (mkEncoder [48; 49]) ([3; 200] ++ [17]) = Ok (prefix ++ rest2)
    /\ length rest1
       = (2 + Z.to_nat (e_digitsToAdd (encode_loop (Z.of_nat (length [48; 49])) P [3%Z; 200%Z])))%nat.
Proof.
  assert (H1 : Encoder_new [48; 49] = Ok (mkEncoder [48; 49])) by reflexivity.
  assert (H2 : Forall byte_ok ([3; 200] ++ [17])) by (repeat constructor; unfold byte_ok; lia).
  split; [split; [exact H1|exact H2]|].
  exact (encode_prefix_stable [48; 49] _ [3; 200] [17] H1 H2).
Defined.

(** X6: with distinct symbols, [encode] maps different byte sequences to
    different texts. *)
Theorem encode_injective : forall alphabet enc bytes1 bytes2,
  NoDup alphabet -> Encoder_new alphabet = Ok enc ->
  Forall byte_ok bytes1 -> Forall byte_ok bytes2 ->
  encode enc bytes1 = encode enc bytes2 -> bytes1 = bytes2.
Proof.
  intros alphabet enc bytes1 bytes2 Hn He H1 H2 E.
  destruct (Encoder_new_ok alphabet enc He) as [-> Hb].
  destruct (encoded_text_decodes alphabet bytes1 Hn ltac:(lia) H1) as [t1 [f1 [E1 D1]]].
  destruct (encoded_text_decodes alphabet bytes2 Hn ltac:(lia) H2) as [t2 [f2 [E2 D2]]].
  rewrite E1, E2 in E. injection E as <-.
  specialize (D1 (f1 + f2)%nat ltac:(lia)). specialize (D2 (f1 + f2)%nat ltac:(lia)).
  rewrite D1 in D2. injection D2 as ->. reflexivity.
Qed.

Lemma encode_injective_witness :
  (NoDup [48; 49] /\ Encoder_new [48; 49] = Ok (mkEncoder [48; 49])
   /\ Forall byte_ok [1; 2] /\ Forall byte_ok [1; 2]
   /\ encode (mkEncoder [48; 49]) [1; 2] = encode (mkEncoder [48; 49]) [1; 2])
  /\ [1; 2] = [1; 2].
Proof.
  assert (H0 : NoDup [48; 49]).
  { apply NoDup_ListNoDup. constructor; [simpl; lia|constructor; [simpl; tauto|constructor]]. }
  assert (H1 : Encoder_new [48; 49] = Ok (mkEncoder [48; 49])) by reflexivity.
  assert (H2 : Forall byte_ok [1; 2]) by (repeat constructor; unfold byte_ok; lia).
  assert (H3 : encode (mkEncoder [48; 49]) [1; 2] = encode (mkEncoder [48; 49]) [1; 2])
    by reflexivity.
  split; [tauto|].
  exact (encode_injective [48; 49] _ [1; 2] [1; 2] H0 H1 H2 H2 H3).
Defined.

(** X7: [decode] throws "invalid input string" before yielding any byte
    when the text is empty, or when its last character is not in the
    alphabet or is a symbol whose index (first occurrence) is above 1. *)
Theorem decode_rejects_bad_terminator : forall alphabet dec text,
  Decoder_new alphabet = Ok dec ->
  (text = [] \/ exists t c, text = t ++ [c]
     /\ (first_index alphabet c = None \/ exists k, first_index alphabet c = Some k /\ 1 < k)) ->
  forall fuel, decode dec text fuel = ([], Raised InputError).
Proof.
  intros alphabet dec text Hd Ht fuel.
  destruct (Decoder_new_ok alphabet dec Hd) as [-> _].
  unfold decode, decode_with; cbn [decodingTable].
  destruct Ht as [->|[t [c [-> Hc]]]]; [reflexivity|].
  rewrite length_app. simpl length.
  replace (Z.of_nat (length t + 1) - 1) with (Z.of_nat (length t)) by lia.
  destruct (Z.ltb_spec (Z.of_nat (length t)) 0) as [|_]; [lia|].
  unfold charCodeAt. rewrite Nat2Z.id, nth_middle, build_decodingTable_lookup.
  destruct Hc as [->|[k [-> Hk]]]; [reflexivity|].
  destruct (Z.ltb_spec 1 k); [reflexivity|lia].
Qed.

Lemma decode_rejects_bad_terminator_witness :
  (Decoder_new [48; 49; 50] = Ok (mkDecoder (build_decodingTable [48; 49; 50]))
   /\ ([49; 50] = [] \/ exists t c, [49; 50] = t ++ [c]
       /\ (first_index [48; 49; 50] c = None
           \/ exists k, first_index [48; 49; 50] c = Some k /\ 1 < k)))
  /\ decode (mkDecoder (build_decodingTable [48; 49; 50])) [49; 50] 5 = ([], Raised InputError).
Proof.
  assert (H1 : Decoder_new [48; 49; 50] = Ok (mkDecoder (build_decodingTable [48; 49; 50])))
    by reflexivity.
  assert (H2 : [49; 50] = [] \/ exists t c, [49; 50] = t ++ [c]
       /\ (first_index [48; 49; 50] c = None
           \/ exists k, first_index [48; 49; 50] c = Some k /\ 1 < k)).
  { right. exists [49], 50. split; [reflexivity|]. right. exists 2. split; [reflexivity|lia]. }
  split; [split; [exact H1|exact H2]|].
  exact (decode_rejects_bad_terminator [48; 49; 50] _ [49; 50] H1 H2 5).
Defined.

(** X8: run on a text [encode] produced (distinct symbols), [decode] never
    throws: for any amount of fuel it has either returned with exactly the
    encoded bytes, or is still running and has yielded a prefix of them. *)
Theorem decode_encoded_prefix : forall alphabet enc dec bytes text,
  NoDup alphabet -> Encoder_new alphabet = Ok enc -> Decoder_new alphabet = Ok dec ->
  Forall byte_ok bytes -> encode enc bytes = Ok text ->
  forall fuel, decode dec text fuel = (bytes, Returned)
    \/ exists ys zs, decode dec text fuel = (ys, Running) /\ ys ++ zs = bytes.
Proof.
  intros alphabet enc dec bytes text Hn He Hd Hbs Ht fuel.
  destruct (Encoder_new_ok alphabet enc He) as [-> Hb].
  destruct (Decoder_new_ok alphabet dec Hd) as [-> _].
  destruct (encoded_text_decodes alphabet bytes Hn ltac:(lia) Hbs) as [t [f0 [Et Df]]].
  rewrite Ht in Et. injection Et as <-.
  unfold decode; cbn [decodingTable].
  pose proof (decode_with_prefix (build_decodingTable alphabet) text fuel f0) as Hp.
  rewrite (Df (fuel + f0)%nat ltac:(lia)) in Hp.
  destruct (decode_with (build_decodingTable alphabet) text fuel) as [ys r].
  destruct Hp as [[-> [zs E]]|E].
  - right. exists ys, zs. split; [reflexivity|]. simpl in E. symmetry. exact E.
  - left. injection E as -> ->. reflexivity.
Qed.

Lemma decode_encoded_prefix_witness :
  exists text,
  (NoDup [48; 49] /\ Encoder_new [48; 49] = Ok (mkEncoder [48; 49])
   /\ Decoder_new [48; 49] = Ok (mkDecoder (build_decodingTable [48; 49]))
   /\ Forall byte_ok [9; 250] /\ encode (mkEncoder [48; 49]) [9; 250] = Ok text)
  /\ (decode (mkDecoder (build_decodingTable [48; 49])) text 3 = ([9; 250], Returned)
      \/ exists ys zs, decode (mkDecoder (build_decodingTable [48; 49])) text 3 = (ys, Running)
                       /\ ys ++ zs = [9; 250]).
Proof.
  assert (H0 : NoDup [48; 49]).
  { apply NoDup_ListNoDup. constructor; [simpl; lia|constructor; [simpl; tauto|constructor]]. }
  assert (H1 : Encoder_new [48; 49] = Ok (mkEncoder [48; 49])) by reflexivity.
  assert (H2 : Decoder_new [48; 49] = Ok (mkDecoder (build_decodingTable [48; 49])))
    by reflexivity.
  assert (H3 : Forall byte_ok [9; 250]) by (repeat constructor; unfold byte_ok; lia).
  destruct (encode (mkEncoder [48; 49]) [9; 250]) as [text|e] eqn:H4;
    [|vm_compute in H4; discriminate].
  exists text. split; [tauto|].
  exact (decode_encoded_prefix [48; 49] _ _ [9; 250] text H0 H1 H2 H3 H4 3).
Defined.

(** X9: the [Decoder]'s table, whose size [decode] uses as the base, has
    at most as many entries as the alphabet has symbols, and exactly as
    many when the symbols are distinct and only then. *)
Theorem decoder_base_distinct : forall alphabet dec,
  Decoder_new alphabet = Ok dec ->
  (size (decodingTable dec) <= length alphabet)%nat
  /\ (size (decodingTable dec) = length alphabet <-> NoDup alphabet).
Proof.
  intros alphabet dec Hd.
  destruct (Decoder_new_ok alphabet dec Hd) as [-> _]. cbn [decodingTable].
  pose proof (fill_table_size_le alphabet (length alphabet) ∅) as L.
  rewrite map_size_empty in L. unfold build_decodingTable.
  split; [exact L|split].
  - intros E. apply NoDup_ListNoDup, (NoDup_nth alphabet 0).
    destruct (fill_table_size_eq alphabet (length alphabet) ∅
                ltac:(rewrite map_size_empty; exact E)) as [_ U].
    exact U.
  - intros Hn. exact (decodingTable_size alphabet Hn).
Qed.

Lemma decoder_base_distinct_witness :
  Decoder_new [48; 49; 48] = Ok (mkDecoder (build_decodingTable [48; 49; 48]))
  /\ (size (decodingTable (mkDecoder (build_decodingTable [48%Z; 49%Z; 48%Z])))
      <= length [48%Z; 49%Z; 48%Z])%nat
  /\ (size (decodingTable (mkDecoder (build_decodingTable [48%Z; 49%Z; 48%Z])))
      = length [48%Z; 49%Z; 48%Z] <-> NoDup [48; 49; 48]).
Proof.
  assert (H1 : Decoder_new [48; 49; 48] = Ok (mkDecoder (build_decodingTable [48; 49; 48])))
    by reflexivity.
  split; [exact H1|]. exact (decoder_base_distinct [48; 49; 48] _ H1).
Defined.
